(** * Fetcher: a shallow embedding of [src/index.ts]

    The development models the [Fetcher] class of the repository: the
    construction of the outgoing request (header expansion, URL joining,
    query string, request interceptors), the executor that [execute] hands
    to [CancelablePromise] (timer, cancel handler, transport call) and the
    callbacks it installs, which run when the platform delivers an event
    (timer expiry, [cancel()], settlement of [fetch] and of the body
    decoding promise).

    Modelling conventions.
    - JavaScript strings are [string]; numbers that the code only compares
      (status, timeout) are [Z].
    - The platform classes [Headers], [AbortController], [setTimeout] and the
      [cancelable-promise] package are not part of the repository; their
      documented behaviour is written out as small functions below.
    - User callbacks (parameter serializer, interceptors) are functions that
      return normally; the interceptors act on a [World] holding the objects
      they can reach, so mutation in place and aliasing are visible.
    - The asynchronous part is a transition system: [step] gives the effect
      of one platform event on the state of one [execute] call. *)

From Stdlib Require Import String Ascii List ZArith Bool Arith Lia.
Import ListNotations.

Local Open Scope string_scope.
Local Open Scope list_scope.
Local Open Scope Z_scope.

(* ------------------------------------------------------------------ *)
(** ** String primitives used by [execute] *)

Definition slash : ascii := "/"%char.

Definition isSlash (c : ascii) : bool := Ascii.eqb c slash.

(** [s.replace(/^\//, "")]: the pattern is anchored at the start and is not
    global, so at most the first character is removed. *)
Definition stripLeadingSlash (s : string) : string :=
  match s with
  | String c rest => if isSlash c then rest else s
  | EmptyString => s
  end.

(** [s.replace(/\/$/, "")]: without the [m] flag [$] matches at the end of
    the input only, so at most the last character is removed. *)
Fixpoint stripTrailingSlash (s : string) : string :=
  match s with
  | EmptyString => EmptyString
  | String c EmptyString => if isSlash c then EmptyString else s
  | String c rest => String c (stripTrailingSlash rest)
  end.

(** [hay.includes(needle)]: case-sensitive substring test. *)
Fixpoint includes (needle hay : string) : bool :=
  String.prefix needle hay ||
  match hay with
  | EmptyString => false
  | String _ rest => includes needle rest
  end.

(** A string is truthy when it is not empty. *)
Definition truthy (s : string) : bool :=
  match s with EmptyString => false | _ => true end.

(** ASCII lower-casing, as [Headers] applies it to header names. *)
Definition lowerAscii (c : ascii) : ascii :=
  let n := nat_of_ascii c in
  if (Nat.leb 65 n && Nat.leb n 90)%bool then ascii_of_nat (n + 32) else c.

Fixpoint toLowerCase (s : string) : string :=
  match s with
  | EmptyString => EmptyString
  | String c rest => String (lowerAscii c) (toLowerCase rest)
  end.

(* ------------------------------------------------------------------ *)
(** ** URL composition (index.ts, lines 128-131) *)

(** [const baseUrl = this.baseUrl ?? ""] followed by
    [baseUrl.replace(/\/$/, "") + "/" + url.replace(/^\//, "")]. *)
Definition joinUrl (baseUrl : option string) (url : string) : string :=
  let baseUrl := match baseUrl with Some b => b | None => "" end in
  (stripTrailingSlash baseUrl ++ "/" ++ stripLeadingSlash url)%string.

(** [url = paramString ? url + "?" + paramString : url]. *)
Definition appendQuery (url paramString : string) : string :=
  if truthy paramString then (url ++ "?" ++ paramString)%string else url.

(** The reading of the specification: the content of a base is the base
    with all of its trailing slashes removed, the content of a path is the
    path with all of its leading slashes removed. *)
Fixpoint trimLeadingSlashes (s : string) : string :=
  match s with
  | String c rest => if isSlash c then trimLeadingSlashes rest else s
  | EmptyString => s
  end.

Fixpoint trimTrailingSlashes (s : string) : string :=
  match s with
  | EmptyString => EmptyString
  | String c rest =>
      match trimTrailingSlashes rest with
      | EmptyString => if isSlash c then EmptyString else String c EmptyString
      | t => String c t
      end
  end.

(** The URL the specification describes: contents joined by one slash. *)
Definition specJoinedUrl (baseUrl : option string) (url : string) : string :=
  let b := match baseUrl with Some b => b | None => "" end in
  (trimTrailingSlashes b ++ "/" ++ trimLeadingSlashes url)%string.

Definition startsWithSlash (s : string) : bool :=
  match s with String c _ => isSlash c | EmptyString => false end.

Fixpoint endsWithSlash (s : string) : bool :=
  match s with
  | EmptyString => false
  | String c EmptyString => isSlash c
  | String _ rest => endsWithSlash rest
  end.

(* ------------------------------------------------------------------ *)
(** ** Data model (index.ts, lines 4-27 and 212-244) *)

Inductive HttpMethod : Type :=
  GET | HEAD | POST | PUT | PATCH | DELETE | OPTIONS | TRACE.

Inductive ResponseType : Type :=
  JSON | FORM_DATA | TEXT | BLOB | ARRAY_BUFFER.

(** The body-reading methods of the platform's fetch response. *)
Inductive BodyMethod : Type :=
  Mjson | MformData | Mtext | Mblob | MarrayBuffer.

(** Objects built by [execute] live in a store and are passed by reference. *)
Definition Ref : Type := nat.

(** An error object raised by the transport: [TypeError], [AbortError],
    [SyntaxError] and the like. *)
Record Fault : Type := mkFault { fault_name : string; fault_message : string }.

Inductive JsVal : Type :=
| VUndefined
| VNull
| VStr (s : string)
| VNum (n : Z)
| VObj (r : Ref)
| VError (e : Fault).

(** [Headers]: an ordered multi-map; [append] adds at the end, [get] joins
    the values of a name (compared without case) with a comma and a space,
    and gives [None] (null) when the name is absent. *)
Definition Headers : Type := list (string * string).

Definition Headers_new : Headers := [].

Definition Headers_append (h : Headers) (name value : string) : Headers :=
  h ++ [(name, value)].

Definition sameName (name : string) (kv : string * string) : bool :=
  String.eqb (toLowerCase (fst kv)) (toLowerCase name).

Definition Headers_get (h : Headers) (name : string) : option string :=
  match filter (sameName name) h with
  | [] => None
  | kv :: rest =>
      Some (fold_left (fun acc kv' => (acc ++ ", " ++ snd kv')%string) rest (snd kv))
  end.

(** [RequestHeaderValue = string | []]: one value or a sequence of values. *)
Inductive RequestHeaderValue : Type :=
| HeaderString (s : string)
| HeaderArray (vs : list string).

(** A headers object, as the key enumeration of [for ... in] yields it. *)
Definition HeadersObject : Type := list (string * RequestHeaderValue).

Definition RequestParams : Type := list (string * JsVal).

Record RequestOptions : Type := mkRequestOptions {
  opt_timeout : option Z;
  opt_headers : option HeadersObject;
  opt_responseType : option ResponseType
}.

Module Request.
Record t : Type := mk {
  url : string;
  headers : Headers;
  params : RequestParams;
  body : JsVal
}.
End Request.

Module Response.
Record t : Type := mk {
  status : Z;
  data : JsVal;
  headers : Headers
}.
End Response.

(** What the transport delivers when the call completes; the body is read
    later, through one of the [BodyMethod]s. *)
Module FetchResponse.
Record t : Type := mk {
  status : Z;
  ok : bool;
  headers : Headers
}.
End FetchResponse.

(** The part of the JavaScript heap that user callbacks can reach: the
    response objects built by [execute] and a journal standing for whatever
    else an interceptor writes to (a log, a counter, a closure variable). *)
Record World : Type := mkWorld {
  heap : list Response.t;
  journal : list string
}.

Definition alloc (o : Response.t) (w : World) : Ref * World :=
  (length (heap w), {| heap := heap w ++ [o]; journal := journal w |}).

Definition deref (r : Ref) (w : World) : option Response.t :=
  nth_error (heap w) r.

Definition ParamsSerializer : Type := RequestParams -> string.

(** [(request: Request) => Request] *)
Definition RequestInterceptor : Type := Request.t -> World -> Request.t * World.

(** [(response: Response) => void]: the callee gets the reference, may
    change the world, and whatever it returns is a [JsVal]. *)
Definition ResponseInterceptor : Type := Ref -> World -> JsVal * World.

(** [(errorResponse: ErrorResponse) => void] *)
Definition ErrorInterceptor : Type := Ref -> World -> JsVal * World.

Record FetcherOptions : Type := mkFetcherOptions {
  fo_timeout : option Z;
  fo_paramsSerializer : option ParamsSerializer;
  fo_requestInterceptors : option (list RequestInterceptor);
  fo_responseInterceptors : option (list ResponseInterceptor);
  fo_errorInterceptors : option (list ErrorInterceptor)
}.

Record Fetcher : Type := mkFetcher {
  baseUrl : option string;
  paramsSerializer : ParamsSerializer;
  timeout : Z;
  requestInterceptors : list RequestInterceptor;
  responseInterceptors : list ResponseInterceptor;
  errorInterceptors : list ErrorInterceptor
}.

Definition orElse {A : Type} (o : option A) (d : A) : A :=
  match o with Some a => a | None => d end.

(** [Fetcher.defaultOptions.timeout] *)
Definition defaultTimeout : Z := 30000.

(** The constructor (lines 44-50); [qsStringify] stands for the default
    serializer, which calls the [qs] package. *)
Definition newFetcher (qsStringify : ParamsSerializer)
    (baseUrl : option string) (options : FetcherOptions) : Fetcher :=
  {| baseUrl := baseUrl;
     paramsSerializer := orElse (fo_paramsSerializer options) qsStringify;
     timeout := orElse (fo_timeout options) defaultTimeout;
     requestInterceptors := orElse (fo_requestInterceptors options) [];
     responseInterceptors := orElse (fo_responseInterceptors options) [];
     errorInterceptors := orElse (fo_errorInterceptors options) [] |}.

Definition addRequestInterceptor (this : Fetcher) (i : RequestInterceptor) : Fetcher :=
  {| baseUrl := baseUrl this;
     paramsSerializer := paramsSerializer this;
     timeout := timeout this;
     requestInterceptors := requestInterceptors this ++ [i];
     responseInterceptors := responseInterceptors this;
     errorInterceptors := errorInterceptors this |}.

Definition addResponseInterceptor (this : Fetcher) (i : ResponseInterceptor) : Fetcher :=
  {| baseUrl := baseUrl this;
     paramsSerializer := paramsSerializer this;
     timeout := timeout this;
     requestInterceptors := requestInterceptors this;
     responseInterceptors := responseInterceptors this ++ [i];
     errorInterceptors := errorInterceptors this |}.

Definition addErrorInterceptor (this : Fetcher) (i : ErrorInterceptor) : Fetcher :=
  {| baseUrl := baseUrl this;
     paramsSerializer := paramsSerializer this;
     timeout := timeout this;
     requestInterceptors := requestInterceptors this;
     responseInterceptors := responseInterceptors this;
     errorInterceptors := errorInterceptors this ++ [i] |}.

(* ------------------------------------------------------------------ *)
(** ** Request construction (index.ts, lines 109-135) *)

(** The inner loop [for (let v of headerValue) headers.append(headerKey, v)]. *)
Fixpoint appendEach (headers : Headers) (headerKey : string) (vs : list string) : Headers :=
  match vs with
  | [] => headers
  | v :: rest => appendEach (Headers_append headers headerKey v) headerKey rest
  end.

(** The outer loop [for (let headerKey in headersObject)]. *)
Fixpoint expandHeaders (headers : Headers) (headersObject : HeadersObject) : Headers :=
  match headersObject with
  | [] => headers
  | (headerKey, headerValue) :: rest =>
      match headerValue with
      | HeaderString s => expandHeaders (Headers_append headers headerKey s) rest
      | HeaderArray vs => expandHeaders (appendEach headers headerKey vs) rest
      end
  end.

(** [options?.headers ?? {}] *)
Definition headersObjectOf (options : option RequestOptions) : HeadersObject :=
  match options with
  | Some o => orElse (opt_headers o) []
  | None => []
  end.

(** [options?.timeout ?? this.timeout] *)
Definition effectiveTimeout (this : Fetcher) (options : option RequestOptions) : Z :=
  match options with
  | Some o => orElse (opt_timeout o) (timeout this)
  | None => timeout this
  end.

(** The loop [for (let requestInterceptor of this.requestInterceptors)
    request = requestInterceptor(request)]. *)
Fixpoint foldRequest (interceptors : list RequestInterceptor)
    (request : Request.t) (w : World) : Request.t * World :=
  match interceptors with
  | [] => (request, w)
  | requestInterceptor :: rest =>
      let '(request', w') := requestInterceptor request w in
      foldRequest rest request' w'
  end.

(** Lines 109-132: the request before any interceptor has seen it. *)
Definition initialRequest (this : Fetcher) (url : string) (params : RequestParams)
    (body : JsVal) (options : option RequestOptions) : Request.t :=
  let headers := expandHeaders Headers_new (headersObjectOf options) in
  let url := joinUrl (baseUrl this) url in
  let paramString := paramsSerializer this params in
  let url := appendQuery url paramString in
  Request.mk url headers params body.

(** Lines 109-135: the request handed on after the interceptor loop. *)
Definition constructRequest (this : Fetcher) (url : string) (params : RequestParams)
    (body : JsVal) (options : option RequestOptions) (w : World) : Request.t * World :=
  foldRequest (requestInterceptors this)
    (initialRequest this url params body options) w.

(* ------------------------------------------------------------------ *)
(** ** State of one [execute] call *)

(** [new AbortController()]: [abort()] sets the flag and dispatches the
    abort event to the observers of the signal only the first time.  The
    two counters are bookkeeping of the model: calls of [abort()] and
    dispatches seen by the transport. *)
Record AbortController : Type := mkAbortController {
  aborted : bool;
  abortCalls : nat;
  abortEvents : nat
}.

Definition newAbortController : AbortController :=
  {| aborted := false; abortCalls := 0%nat; abortEvents := 0%nat |}.

(** [timeoutTimeout] together with the platform's view of the timer:
    [TimerNone] is the initial [null]. *)
Inductive Timer : Type :=
| TimerNone
| TimerArmed (delay : Z)
| TimerCleared
| TimerFired.

Inductive PromiseState : Type :=
| Pending
| Fulfilled (value : JsVal)
| Rejected (reason : JsVal).

(** The closure passed to [onCancel] at lines 148-151. *)
Inductive CancelCallback : Type := AbortAndClearTimer.

(** The arguments of the transport call at line 152. *)
Record FetchCall : Type := mkFetchCall {
  fc_url : string;
  fc_method : option HttpMethod;
  fc_headers : Headers;
  fc_body : JsVal;
  fc_signal : bool
}.

(** Where the promise chain of lines 152-205 stands. *)
Inductive Phase : Type :=
| NotIssued
| AwaitingFetch
| AwaitingBody (fetchResponse : FetchResponse.t) (method : BodyMethod)
| Finished.

(** Calls of the executor's [resolve] and [reject], in order. *)
Inductive SettleCall : Type :=
| CallResolve (value : JsVal)
| CallReject (reason : JsVal).

(** Calls of response and error interceptors: position in the list and
    the reference passed. *)
Inductive Invocation : Type :=
| InvokeResponse (index : nat) (arg : Ref)
| InvokeError (index : nat) (arg : Ref).

(** The state of a call: the promise [execute] returned and its cancel
    list, the variables the closures share ([abortController],
    [timeoutTimeout], [options]), the stage of the promise chain and the
    world.  The last three fields record the calls made so far; they are
    bookkeeping of the model. *)
Record Exec : Type := mkExec {
  promise : PromiseState;
  isCanceled : bool;
  onCancelList : list CancelCallback;
  abortController : AbortController;
  timeoutTimeout : Timer;
  phase : Phase;
  options : option RequestOptions;
  world : World;
  fetchCalls : list FetchCall;
  settleCalls : list SettleCall;
  invocations : list Invocation
}.

Definition setPromise (p : PromiseState) (st : Exec) : Exec :=
  mkExec p (isCanceled st) (onCancelList st) (abortController st)
    (timeoutTimeout st) (phase st) (options st) (world st)
    (fetchCalls st) (settleCalls st) (invocations st).

Definition setCanceled (b : bool) (l : list CancelCallback) (st : Exec) : Exec :=
  mkExec (promise st) b l (abortController st)
    (timeoutTimeout st) (phase st) (options st) (world st)
    (fetchCalls st) (settleCalls st) (invocations st).

Definition setAbortController (c : AbortController) (st : Exec) : Exec :=
  mkExec (promise st) (isCanceled st) (onCancelList st) c
    (timeoutTimeout st) (phase st) (options st) (world st)
    (fetchCalls st) (settleCalls st) (invocations st).

Definition setTimer (t : Timer) (st : Exec) : Exec :=
  mkExec (promise st) (isCanceled st) (onCancelList st) (abortController st)
    t (phase st) (options st) (world st)
    (fetchCalls st) (settleCalls st) (invocations st).

Definition setPhase (p : Phase) (st : Exec) : Exec :=
  mkExec (promise st) (isCanceled st) (onCancelList st) (abortController st)
    (timeoutTimeout st) p (options st) (world st)
    (fetchCalls st) (settleCalls st) (invocations st).

Definition setWorld (w : World) (st : Exec) : Exec :=
  mkExec (promise st) (isCanceled st) (onCancelList st) (abortController st)
    (timeoutTimeout st) (phase st) (options st) w
    (fetchCalls st) (settleCalls st) (invocations st).

Definition logFetch (c : FetchCall) (st : Exec) : Exec :=
  mkExec (promise st) (isCanceled st) (onCancelList st) (abortController st)
    (timeoutTimeout st) (phase st) (options st) (world st)
    (fetchCalls st ++ [c]) (settleCalls st) (invocations st).

Definition logSettle (c : SettleCall) (st : Exec) : Exec :=
  mkExec (promise st) (isCanceled st) (onCancelList st) (abortController st)
    (timeoutTimeout st) (phase st) (options st) (world st)
    (fetchCalls st) (settleCalls st ++ [c]) (invocations st).

Definition logInvocation (i : Invocation) (st : Exec) : Exec :=
  mkExec (promise st) (isCanceled st) (onCancelList st) (abortController st)
    (timeoutTimeout st) (phase st) (options st) (world st)
    (fetchCalls st) (settleCalls st) (invocations st ++ [i]).

(* ------------------------------------------------------------------ *)
(** ** Platform operations the executor calls *)

(** [abortController.abort()] *)
Definition abort (st : Exec) : Exec :=
  let c := abortController st in
  setAbortController
    {| aborted := true;
       abortCalls := S (abortCalls c);
       abortEvents := if aborted c then abortEvents c else S (abortEvents c) |}
    st.

(** A promise settles once: later calls of [resolve] and [reject] are
    recorded and change nothing. *)
Definition settle (p : PromiseState) (st : Exec) : Exec :=
  setPromise (match promise st with Pending => p | settled => settled end) st.

Definition resolve (value : JsVal) (st : Exec) : Exec :=
  settle (Fulfilled value) (logSettle (CallResolve value) st).

Definition reject (reason : JsVal) (st : Exec) : Exec :=
  settle (Rejected reason) (logSettle (CallReject reason) st).

(** [timeoutTimeout = setTimeout(..., timeout)] *)
Definition setTimeout (delay : Z) (st : Exec) : Exec :=
  setTimer (TimerArmed delay) st.

(** [timeoutTimeout && clearTimeout(timeoutTimeout)]: nothing happens for
    [null], and clearing a timer that fired or was cleared is a no-op. *)
Definition clearTimeout (st : Exec) : Exec :=
  setTimer
    (match timeoutTimeout st with TimerArmed _ => TimerCleared | t => t end) st.

(** [onCancel(callback)] of the [cancelable-promise] package: the callback
    is pushed on the promise's list. *)
Definition onCancel (cb : CancelCallback) (st : Exec) : Exec :=
  setCanceled (isCanceled st) (onCancelList st ++ [cb]) st.

(** The callback of lines 148-151. *)
Definition runCancelCallback (cb : CancelCallback) (st : Exec) : Exec :=
  match cb with
  | AbortAndClearTimer => clearTimeout (abort st)
  end.

(** [cancel()] of the [cancelable-promise] package: mark the promise as
    canceled, empty the callback list and run the callbacks it held. *)
Definition cancel (st : Exec) : Exec :=
  let callbacks := onCancelList st in
  fold_left (fun s cb => runCancelCallback cb s) callbacks
    (setCanceled true [] st).

(** [fetch(request.url, {...request, signal: abortController.signal, method})] *)
Definition fetch (request : Request.t) (method : HttpMethod) (st : Exec) : Exec :=
  logFetch
    {| fc_url := Request.url request;
       fc_method := Some method;
       fc_headers := Request.headers request;
       fc_body := Request.body request;
       fc_signal := true |}
    (setPhase AwaitingFetch st).

(* ------------------------------------------------------------------ *)
(** ** The callbacks of the promise chain (index.ts, lines 152-205) *)

(** Lines 154-178: which body method is called. *)
Definition selectDecoding (options : option RequestOptions)
    (fetchResponse : FetchResponse.t) : BodyMethod :=
  let responseType :=
    match options with Some o => opt_responseType o | None => None end in
  match responseType with
  | Some JSON => Mjson
  | Some FORM_DATA => MformData
  | Some TEXT => Mtext
  | Some BLOB => Mblob
  | Some ARRAY_BUFFER => MarrayBuffer
  | None =>
      match Headers_get (FetchResponse.headers fetchResponse) "Content-Type" with
      | Some contentType => if includes "json" contentType then Mjson else Mtext
      | None => Mtext
      end
  end.

(** [for (let responseInterceptor of this.responseInterceptors)
    responseInterceptor(response)]: the value returned is dropped. *)
Fixpoint runResponseInterceptors (interceptors : list ResponseInterceptor)
    (index : nat) (response : Ref) (st : Exec) : Exec :=
  match interceptors with
  | [] => st
  | responseInterceptor :: rest =>
      let '(_, w) := responseInterceptor response (world st) in
      runResponseInterceptors rest (S index) response
        (setWorld w (logInvocation (InvokeResponse index response) st))
  end.

(** [for (let errorInterceptor of this.errorInterceptors)
    errorInterceptor(errorResponse)] *)
Fixpoint runErrorInterceptors (interceptors : list ErrorInterceptor)
    (index : nat) (errorResponse : Ref) (st : Exec) : Exec :=
  match interceptors with
  | [] => st
  | errorInterceptor :: rest =>
      let '(_, w) := errorInterceptor errorResponse (world st) in
      runErrorInterceptors rest (S index) errorResponse
        (setWorld w (logInvocation (InvokeError index errorResponse) st))
  end.

(** The object literal [{status, data, headers: fetchResponse.headers}]. *)
Definition newObject (o : Response.t) (st : Exec) : Ref * Exec :=
  let '(r, w) := alloc o (world st) in (r, setWorld w st).

(** [fetchResponse.ok && status < 300 && status >= 200] *)
Definition isSuccess (fetchResponse : FetchResponse.t) : bool :=
  let status := FetchResponse.status fetchResponse in
  FetchResponse.ok fetchResponse && (status <? 300) && (status >=? 200).

(** Lines 179-200: the callback run with the decoded body. *)
Definition onData (this : Fetcher) (fetchResponse : FetchResponse.t)
    (data : JsVal) (st : Exec) : Exec :=
  let status := FetchResponse.status fetchResponse in
  if isSuccess fetchResponse then
    let '(response, st1) :=
      newObject (Response.mk status data (FetchResponse.headers fetchResponse)) st in
    let st2 := runResponseInterceptors (responseInterceptors this) 0%nat response st1 in
    resolve (VObj response) st2
  else
    let '(errorResponse, st1) :=
      newObject (Response.mk status data (FetchResponse.headers fetchResponse)) st in
    let st2 := runErrorInterceptors (errorInterceptors this) 0%nat errorResponse st1 in
    reject (VObj errorResponse) st2.

(** Lines 152-178 and 203-205: the [then] callback of the transport promise
    picks the body method; [finally] then clears the timer (the outer chain
    does not wait for the body). *)
Definition onFetchFulfilled (fetchResponse : FetchResponse.t) (st : Exec) : Exec :=
  let method := selectDecoding (options st) fetchResponse in
  clearTimeout (setPhase (AwaitingBody fetchResponse method) st).

(** Lines 202-205: [.catch(reject)] then [finally]. *)
Definition onFetchRejected (e : Fault) (st : Exec) : Exec :=
  clearTimeout (reject (VError e) (setPhase Finished st)).

(** Line 201: [.catch(reject)] on the body promise. *)
Definition onBodyRejected (e : Fault) (st : Exec) : Exec :=
  reject (VError e) (setPhase Finished st).

(** Lines 143-146: the timer callback. *)
Definition onTimeout (st : Exec) : Exec :=
  reject (VStr "timeout") (abort (setTimer TimerFired st)).

(* ------------------------------------------------------------------ *)
(** ** Events and the transition function *)

Inductive Event : Type :=
| TimerExpired
| CancelCalled
| FetchFulfilled (fetchResponse : FetchResponse.t)
| FetchRejected (e : Fault)
| BodyFulfilled (data : JsVal)
| BodyRejected (e : Fault).

(** One event.  An event that cannot occur in the state leaves it as it
    is: a timer fires only while armed; the transport promise settles once,
    and, observing the signal, it is not fulfilled after the signal was
    aborted; the body promise settles once after the transport promise. *)
Definition step (this : Fetcher) (st : Exec) (ev : Event) : Exec :=
  match ev with
  | TimerExpired =>
      match timeoutTimeout st with
      | TimerArmed _ => onTimeout st
      | _ => st
      end
  | CancelCalled => cancel st
  | FetchFulfilled fetchResponse =>
      match phase st with
      | AwaitingFetch =>
          if aborted (abortController st) then st
          else onFetchFulfilled fetchResponse st
      | _ => st
      end
  | FetchRejected e =>
      match phase st with
      | AwaitingFetch => onFetchRejected e st
      | _ => st
      end
  | BodyFulfilled data =>
      match phase st with
      | AwaitingBody fetchResponse _ => onData this fetchResponse data (setPhase Finished st)
      | _ => st
      end
  | BodyRejected e =>
      match phase st with
      | AwaitingBody _ _ => onBodyRejected e st
      | _ => st
      end
  end.

Definition run (this : Fetcher) (st : Exec) (evs : list Event) : Exec :=
  fold_left (step this) evs st.

(* ------------------------------------------------------------------ *)
(** ** [execute] (index.ts, lines 108-208) *)

(** What a call of [execute] gives back: the state of the promise it
    returns, or the value it throws. *)
Inductive Thrown : Type :=
| RejectedPromise (reason : string).

Inductive Outcome : Type :=
| Throws (v : Thrown) (w : World)
| Returns (st : Exec).

(** The state in which the executor starts. *)
Definition newPromise (abortController : AbortController)
    (options : option RequestOptions) (w : World) : Exec :=
  {| promise := Pending;
     isCanceled := false;
     onCancelList := [];
     abortController := abortController;
     timeoutTimeout := TimerNone;
     phase := NotIssued;
     options := options;
     world := w;
     fetchCalls := [];
     settleCalls := [];
     invocations := [] |}.

(** Lines 139-152: the executor, run synchronously by the constructor. *)
Definition executor (method : HttpMethod) (timeout : Z) (request : Request.t)
    (st : Exec) : Exec :=
  let st := if timeout >=? 0 then setTimeout timeout st else st in
  let st := onCancel AbortAndClearTimer st in
  fetch request method st.

(** Lines 136-138: the check made before the promise is built. *)
Definition preflight (abortController : AbortController) (w : World)
    (k : Exec) : Outcome :=
  if aborted abortController
  then Throws (RejectedPromise "canceled") w
  else Returns k.

Definition execute (this : Fetcher) (method : HttpMethod) (url : string)
    (params : RequestParams) (body : JsVal) (options : option RequestOptions)
    (w : World) : Outcome :=
  let timeout := effectiveTimeout this options in
  let abortController := newAbortController in
  let '(request, w') := constructRequest this url params body options w in
  preflight abortController w'
    (executor method timeout request (newPromise abortController options w')).

(** The verb wrappers (lines 69-106). *)
Module Verbs.
Definition post this url params body options w := execute this POST url params body options w.
Definition put this url params body options w := execute this PUT url params body options w.
Definition patch this url params body options w := execute this PATCH url params body options w.
Definition get this url params options w := execute this GET url params VNull options w.
Definition delete this url params options w := execute this DELETE url params VNull options w.
Definition head this url params options w := execute this HEAD url params VNull options w.
Definition trace this url params options w := execute this TRACE url params VNull options w.
Definition options this url params opts w := execute this OPTIONS url params VNull opts w.
End Verbs.

(** States a call of [execute] can be in.  The interceptor lists are read
    when a callback runs, so each event may see the client as it is then. *)
Inductive reachable : Exec -> Prop :=
| reach_start this method url params body options w st :
    execute this method url params body options w = Returns st ->
    reachable st
| reach_step this st ev :
    reachable st ->
    reachable (step this st ev).

(* ------------------------------------------------------------------ *)
(** ** The earlier variant of [execute] (unnamed/part_000, lines 106-139) *)

Module Legacy.

(** Lines 109-118, the two loops over the headers object. *)
Definition expandHeaders (headersObject : HeadersObject) : Headers :=
  fold_left
    (fun headers (entry : string * RequestHeaderValue) =>
       let '(headerKey, headerValue) := entry in
       match headerValue with
       | HeaderString s => Headers_append headers headerKey s
       | HeaderArray vs =>
           fold_left (fun h v => Headers_append h headerKey v) vs headers
       end)
    headersObject Headers_new.

(** What the variant has done when it reaches [await fetch(...)]: the timer
    of lines 124-130, the request of lines 135-138 and the arguments of the
    transport call of line 139. *)
Record Started : Type := mkStarted {
  timer : Timer;
  request : Request.t;
  world : World;
  fetchCall : FetchCall
}.

Definition execute (this : Fetcher) (method : HttpMethod) (url : string)
    (params : RequestParams) (body : JsVal) (options : option RequestOptions)
    (w : World) : Started :=
  let headersObject :=
    orElse (match options with Some o => opt_headers o | None => None end) [] in
  let headers := expandHeaders headersObject in
  let timeout :=
    orElse (match options with Some o => opt_timeout o | None => None end)
      (timeout this) in
  let timer := if timeout <=? 0 then TimerArmed timeout else TimerNone in
  let baseUrl := orElse (baseUrl this) "" in
  let url := (stripTrailingSlash baseUrl ++ "/" ++ stripLeadingSlash url)%string in
  let paramString := paramsSerializer this params in
  let url := if truthy paramString then (url ++ "?" ++ paramString)%string else url in
  let request := Request.mk url headers params body in
  let '(request, w) :=
    fold_left (fun (acc : Request.t * World) (requestInterceptor : RequestInterceptor) =>
                 requestInterceptor (fst acc) (snd acc))
      (requestInterceptors this) (request, w) in
  {| timer := timer;
     request := request;
     world := w;
     fetchCall :=
       {| fc_url := Request.url request;
          fc_method := None;
          fc_headers := Request.headers request;
          fc_body := Request.body request;
          fc_signal := false |} |}.

End Legacy.

(* ------------------------------------------------------------------ *)
(** ** Readings of the specification used in the statements below *)

(** Section 4.3, step 8, in the specification's words: an explicit
    response type decides; otherwise a content type containing "json"
    means JSON, and anything else means text. *)
Definition methodOf (responseType : ResponseType) : BodyMethod :=
  match responseType with
  | JSON => Mjson
  | FORM_DATA => MformData
  | TEXT => Mtext
  | BLOB => Mblob
  | ARRAY_BUFFER => MarrayBuffer
  end.

Definition specDecoding (responseType : option ResponseType)
    (contentType : option string) : BodyMethod :=
  match responseType with
  | Some rt => methodOf rt
  | None =>
      if match contentType with Some ct => includes "json" ct | None => false end
      then Mjson else Mtext
  end.

(** The response type a caller asked for. *)
Definition requestedType (options : option RequestOptions) : option ResponseType :=
  match options with Some o => opt_responseType o | None => None end.

(** The world after a chain of observers ran on [r], left to right. *)
Definition afterObservers (interceptors : list (Ref -> World -> JsVal * World))
    (r : Ref) (w : World) : World :=
  fold_left (fun w i => snd (i r w)) interceptors w.

(** Two observers that differ at most in what they return. *)
Definition sameEffect (i j : Ref -> World -> JsVal * World) : Prop :=
  forall r w, snd (i r w) = snd (j r w).

(** The arguments of the transport call for a request. *)
Definition fetchCallOf (request : Request.t) (method : HttpMethod) : FetchCall :=
  {| fc_url := Request.url request;
     fc_method := Some method;
     fc_headers := Request.headers request;
     fc_body := Request.body request;
     fc_signal := true |}.

(** A request interceptor that appends a tag, as in the specification's
    example: the tag goes into an [X-Tag] header. *)
Definition tagInterceptor (tag : string) : RequestInterceptor :=
  fun request w =>
    (Request.mk (Request.url request)
       (Headers_append (Request.headers request) "X-Tag" tag)
       (Request.params request) (Request.body request), w).

(** The claim that the two variants agree on all they did before the
    transport call: request, world and timer. *)
Definition agreeBeforeFetch (this : Fetcher) (method : HttpMethod) (url : string)
    (params : RequestParams) (body : JsVal) (options : option RequestOptions)
    (w : World) : Prop :=
  let legacy := Legacy.execute this method url params body options w in
  match execute this method url params body options w with
  | Returns st =>
      constructRequest this url params body options w
        = (Legacy.request legacy, Legacy.world legacy)
      /\ world st = Legacy.world legacy
      /\ timeoutTimeout st = Legacy.timer legacy
  | Throws _ _ => False
  end.

(** Sample values for the closed statements. *)
Definition noSerializer : ParamsSerializer := fun _ => "".

Definition emptyWorld : World := {| heap := []; journal := [] |}.

Definition note (s : string) : Ref -> World -> JsVal * World :=
  fun r w => (VObj (S r), {| heap := heap w; journal := journal w ++ [s] |}).

Definition sampleFetcher : Fetcher :=
  {| baseUrl := Some "https://api.test/";
     paramsSerializer := noSerializer;
     timeout := defaultTimeout;
     requestInterceptors := [tagInterceptor "a"; tagInterceptor "b"];
     responseInterceptors := [note "r1"; note "r2"];
     errorInterceptors := [note "e1"; note "e2"] |}.

Definition withTimeout (t : Z) : option RequestOptions :=
  Some {| opt_timeout := Some t; opt_headers := None; opt_responseType := None |}.

Definition sampleStart (options : option RequestOptions) : Exec :=
  match execute sampleFetcher GET "/v1/x" [] VNull options emptyWorld with
  | Returns st => st
  | Throws _ w => newPromise newAbortController options w
  end.

Definition jsonResponse (status : Z) (ok : bool) : FetchResponse.t :=
  FetchResponse.mk status ok [("content-type", "application/json")].

Definition abortError : Fault := mkFault "AbortError" "The operation was aborted".
Definition networkError : Fault := mkFault "TypeError" "Failed to fetch".

(** One link of the request-interceptor chain. *)
Definition chain (acc : Request.t * World) (i : RequestInterceptor) : Request.t * World :=
  i (fst acc) (snd acc).

(** A state after observers ran: a new world and more recorded calls. *)
Definition withObservation (w : World) (l : list Invocation) (st : Exec) : Exec :=
  mkExec (promise st) (isCanceled st) (onCancelList st) (abortController st)
    (timeoutTimeout st) (phase st) (options st) w
    (fetchCalls st) (settleCalls st) (invocations st ++ l).

Definition responseCalls (n : nat) (r : Ref) : list Invocation :=
  map (fun i => InvokeResponse i r) (seq 0 n).

Definition errorCalls (n : nat) (r : Ref) : list Invocation :=
  map (fun i => InvokeError i r) (seq 0 n).

Definition firedCount (t : Timer) : nat :=
  match t with TimerFired => 1%nat | _ => 0%nat end.

Definition canceledCount (b : bool) : nat := if b then 1%nat else 0%nat.

Definition timeoutReject : SettleCall := CallReject (VStr "timeout").

(** What holds in every state of a call (see [reachable_Inv]). *)
Record Inv (st : Exec) : Prop := mkInv {
  inv_cancelList :
    onCancelList st = if isCanceled st then [] else [AbortAndClearTimer];
  inv_abortCalls :
    abortCalls (abortController st)
    = (firedCount (timeoutTimeout st) + canceledCount (isCanceled st))%nat;
  inv_abortEvents :
    abortEvents (abortController st) = Nat.min 1 (abortCalls (abortController st));
  inv_aborted :
    aborted (abortController st) = negb (Nat.eqb (abortCalls (abortController st)) 0);
  inv_armed :
    forall d, timeoutTimeout st = TimerArmed d ->
              phase st = AwaitingFetch /\ isCanceled st = false;
  inv_settled :
    promise st <> Pending -> phase st = Finished \/ timeoutTimeout st = TimerFired;
  inv_pending : promise st = Pending <-> settleCalls st = [];
  inv_rejected :
    forall v, promise st = Rejected v -> In (CallReject v) (settleCalls st);
  inv_body :
    forall fr m, phase st = AwaitingBody fr m ->
                 timeoutTimeout st = TimerNone \/ timeoutTimeout st = TimerCleared;
  inv_timeoutCall :
    In timeoutReject (settleCalls st) <-> timeoutTimeout st = TimerFired
}.

(** The object built by [onData] and where it is stored. *)
Definition builtObject (fr : FetchResponse.t) (data : JsVal) : Response.t :=
  Response.mk (FetchResponse.status fr) data (FetchResponse.headers fr).


(** An observer with the effect of [note] that returns nothing. *)
Definition quiet (s : string) : Ref -> World -> JsVal * World :=
  fun r w => (VUndefined, snd (note s r w)).

Definition quietFetcher : Fetcher :=
  {| baseUrl := baseUrl sampleFetcher;
     paramsSerializer := paramsSerializer sampleFetcher;
     timeout := timeout sampleFetcher;
     requestInterceptors := requestInterceptors sampleFetcher;
     responseInterceptors := [quiet "r1"; quiet "r2"];
     errorInterceptors := [quiet "e1"; quiet "e2"] |}.

(** The entries one key of a headers object contributes. *)
Definition headerEntries (entry : string * RequestHeaderValue) : list (string * string) :=
  match snd entry with
  | HeaderString s => [(fst entry, s)]
  | HeaderArray vs => map (fun v => (fst entry, v)) vs
  end.

(* ------------------------------------------------------------------ *)
(** ** Proof automation for the transition system *)

Ltac inv_init H :=
  destruct H as [Hcl Hac Hae Hab Harm Hset Hpen Hrej Hbody Htc].

Ltac break st :=
  destruct st as [p c l [ab nc ne] t ph o w fc sc iv]; simpl in *.

Ltac unfold_ops :=
  unfold onTimeout, onFetchFulfilled, onFetchRejected, onBodyRejected, cancel,
    runCancelCallback, clearTimeout, reject, resolve, settle, abort, setTimeout,
    onCancel, withObservation, setTimer, setPhase, setPromise, setCanceled,
    setAbortController, setWorld, logSettle, logFetch, logInvocation,
    timeoutReject in *;
  simpl in *.

Ltac inv_solve :=
  constructor; simpl; intros;
  repeat match goal with
         | H : _ ++ [_] = [] |- _ =>
             apply app_eq_nil in H; destruct H as [_ H]; discriminate H
         | H : In _ (_ ++ [_]) |- _ =>
             apply in_app_or in H; destruct H as [H | [H | []]]
         | |- In _ (_ ++ [_]) => apply in_or_app; simpl
         | |- _ <-> _ => split; intros
         | H : _ \/ _ |- _ => destruct H
         | H : _ /\ _ |- _ => destruct H
         | H : _ <-> _ |- _ => destruct H
         | H : ?P -> _, H' : ?P |- _ => specialize (H H')
         | H : ?x = ?x -> _ |- _ => specialize (H eq_refl)
         end;
  try discriminate; try congruence; eauto;
  try (left; congruence); try (right; congruence);
  try (right; left; congruence).

Ltac frame_solve :=
  repeat match goal with |- _ /\ _ => split end;
  try reflexivity; auto;
  try (let F := fresh "F" in intros [F | F]; discriminate).

(* ------------------------------------------------------------------ *)
(** ** The earlier variant after the transport call
       (unnamed/part_000, lines 139-187) *)

Module LegacyRun.

(** What the transport does with the one call of an execution: the call
    itself fails, or it delivers a response whose body method then fails or
    yields the decoded body. *)
Inductive Completion : Type :=
| FetchFails (e : Fault)
| BodyFails (fetchResponse : FetchResponse.t) (e : Fault)
| BodyReads (fetchResponse : FetchResponse.t) (data : JsVal).

(** How the promise of the [async] function ends: a [return] fulfils it, a
    [throw] (also one raised by an [await]) rejects it. *)
Record Settled : Type := mkSettled {
  promise : PromiseState;
  world : World;
  invocations : list Invocation;
  decoded : option BodyMethod
}.

(** Lines 141-165: the body method awaited. *)
Definition bodyMethod (options : option RequestOptions)
    (fetchResponse : FetchResponse.t) : BodyMethod :=
  let byContentType :=
    match Headers_get (FetchResponse.headers fetchResponse) "Content-Type" with
    | Some contentType => if includes "json" contentType then Mjson else Mtext
    | None => Mtext
    end in
  match options with
  | Some o =>
      match opt_responseType o with
      | Some JSON => Mjson
      | Some FORM_DATA => MformData
      | Some TEXT => Mtext
      | Some BLOB => Mblob
      | Some ARRAY_BUFFER => MarrayBuffer
      | None => byContentType
      end
  | None => byContentType
  end.

(** The loops of lines 172-174 and 182-184: every interceptor is called on
    the same reference; [mk] tags the recorded call. *)
Definition observe (mk : nat -> Ref -> Invocation)
    (interceptors : list (Ref -> World -> JsVal * World)) (r : Ref) (w : World)
    : World * list Invocation :=
  let step (acc : nat * World * list Invocation)
           (interceptor : Ref -> World -> JsVal * World) :=
    let '(k, w, l) := acc in
    (S k, snd (interceptor r w), l ++ [mk k r]) in
  let '(_, w', l) := fold_left step interceptors (0%nat, w, []) in
  (w', l).

(** Lines 139-187 for one completion of the transport, started in the
    world the request interceptors left. *)
Definition complete (this : Fetcher) (options : option RequestOptions)
    (w : World) (c : Completion) : Settled :=
  match c with
  | FetchFails e =>
      {| promise := Rejected (VError e); world := w;
         invocations := []; decoded := None |}
  | BodyFails fetchResponse e =>
      {| promise := Rejected (VError e); world := w;
         invocations := []; decoded := Some (bodyMethod options fetchResponse) |}
  | BodyReads fetchResponse data =>
      let status := FetchResponse.status fetchResponse in
      let method := Some (bodyMethod options fetchResponse) in
      if FetchResponse.ok fetchResponse && (status <? 300) && (status >=? 200) then
        let '(response, w1) :=
          alloc (Response.mk status data (FetchResponse.headers fetchResponse)) w in
        let '(w2, l) := observe InvokeResponse (responseInterceptors this) response w1 in
        {| promise := Fulfilled (VObj response); world := w2;
           invocations := l; decoded := method |}
      else
        let '(errorResponse, w1) :=
          alloc (Response.mk status data (FetchResponse.headers fetchResponse)) w in
        let '(w2, l) := observe InvokeError (errorInterceptors this) errorResponse w1 in
        {| promise := Rejected (VObj errorResponse); world := w2;
           invocations := l; decoded := method |}
  end.

(** The whole function: request construction, then the completion. *)
Definition execute (this : Fetcher) (method : HttpMethod) (url : string)
    (params : RequestParams) (body : JsVal) (options : option RequestOptions)
    (w : World) (c : Completion) : Settled :=
  complete this options
    (Legacy.world (Legacy.execute this method url params body options w)) c.

End LegacyRun.

(** The events by which the platform delivers a completion to the current
    variant when no timer fires and nobody cancels. *)
Definition eventsOf (c : LegacyRun.Completion) : list Event :=
  match c with
  | LegacyRun.FetchFails e => [FetchRejected e]
  | LegacyRun.BodyFails fetchResponse e => [FetchFulfilled fetchResponse; BodyRejected e]
  | LegacyRun.BodyReads fetchResponse data =>
      [FetchFulfilled fetchResponse; BodyFulfilled data]
  end.

(** The body method the current variant called, if it got that far. *)
Definition decodedBy (trace : list Exec) : option BodyMethod :=
  fold_left
    (fun acc st =>
       match phase st with AwaitingBody _ method => Some method | _ => acc end)
    trace None.

(** The states a run passes through, the start state included. *)
Fixpoint states (this : Fetcher) (st : Exec) (evs : list Event) : list Exec :=
  match evs with
  | [] => [st]
  | ev :: rest => st :: states this (step this st ev) rest
  end.

(** The timeout a client built by the constructor applies to a call. *)
Definition configuredTimeout (perCall : option Z) (perClient : option Z) : Z :=
  match perCall with
  | Some t => t
  | None => match perClient with Some t => t | None => 30000 end
  end.

(** How the outcome of a call and the interceptor calls made so far go
    together. *)
Definition outcomeMatchesCalls (st : Exec) : Prop :=
  match promise st with
  | Pending => invocations st = []
  | Fulfilled v =>
      phase st = Finished
      /\ exists n r, v = VObj r /\ invocations st = responseCalls n r
  | Rejected (VObj r) =>
      phase st = Finished /\ exists n, invocations st = errorCalls n r
  | Rejected _ => invocations st = []
  end.

(** A call that returned a promise after exactly one transport call, made
    with [method] for [request]. *)
Definition sends (o : Outcome) (method : HttpMethod) (request : Request.t) : Prop :=
  exists st, o = Returns st /\ fetchCalls st = [fetchCallOf request method].

(** The values [execute] rejects with: the string "timeout", an error
    response object, or a fault of the transport. *)
Definition knownReason (v : JsVal) : Prop :=
  match v with
  | VStr s => s = "timeout"
  | VObj _ => True
  | VError _ => True
  | _ => False
  end.

Definition reasonsInv (st : Exec) : Prop :=
  (forall v, promise st = Rejected v -> knownReason v)
  /\ (timeoutTimeout st = TimerFired <-> promise st = Rejected (VStr "timeout")).

(** An observer that leaves the object behind [r] as it found it. *)
Definition preservesObject (r : Ref) (i : Ref -> World -> JsVal * World) : Prop :=
  forall w, deref r (snd (i r w)) = deref r w.


(* ================================================================== *)
(** * Properties *)

(* ------------------------------------------------------------------ *)
(** ** URL joining *)

Lemma length_append (s t : string) :
  String.length (s ++ t)%string = (String.length s + String.length t)%nat.
Proof.
  induction s as [|c s IH]; simpl; [reflexivity | now rewrite IH].
Qed.

Lemma trimLeadingSlashes_fixed (s : string) :
  startsWithSlash s = false -> trimLeadingSlashes s = s.
Proof.
  destruct s as [|c s]; simpl; [reflexivity |].
  intros H. now rewrite H.
Qed.

Lemma trimLeadingSlashes_length (s : string) :
  (String.length (trimLeadingSlashes s) <= String.length s)%nat.
Proof.
  induction s as [|c s IH]; simpl; [lia |].
  destruct (isSlash c); simpl; lia.
Qed.

Lemma trimLeadingSlashes_shorter (s : string) :
  startsWithSlash s = true ->
  (String.length (trimLeadingSlashes s) < String.length s)%nat.
Proof.
  destruct s as [|c s]; simpl; [discriminate |].
  intros H. rewrite H.
  pose proof (trimLeadingSlashes_length s). lia.
Qed.

Lemma trimLeadingSlashes_strip (s : string) :
  trimLeadingSlashes (stripLeadingSlash s) = trimLeadingSlashes s.
Proof.
  destruct s as [|c s]; simpl; [reflexivity |].
  destruct (isSlash c) eqn:E; simpl; [reflexivity | now rewrite E].
Qed.

Lemma trimTrailingSlashes_fixed (s : string) :
  endsWithSlash s = false -> trimTrailingSlashes s = s.
Proof.
  induction s as [|c s IH]; simpl; [reflexivity |].
  destruct s as [|d s'].
  - simpl. intros H. now rewrite H.
  - intros H. rewrite (IH H). reflexivity.
Qed.

Lemma trimTrailingSlashes_length (s : string) :
  (String.length (trimTrailingSlashes s) <= String.length s)%nat.
Proof.
  induction s as [|c s IH]; simpl; [lia |].
  destruct (trimTrailingSlashes s) as [|d t]; simpl in *.
  - destruct (isSlash c); simpl; lia.
  - lia.
Qed.

Lemma trimTrailingSlashes_shorter (s : string) :
  endsWithSlash s = true ->
  (String.length (trimTrailingSlashes s) < String.length s)%nat.
Proof.
  induction s as [|c s IH]; simpl; [discriminate |].
  destruct s as [|d s'].
  - simpl. intros H. rewrite H. simpl. lia.
  - intros H. specialize (IH H).
    destruct (trimTrailingSlashes (String d s')) as [|e t]; simpl in *.
    + destruct (isSlash c); simpl; lia.
    + lia.
Qed.

Lemma trimTrailingSlashes_strip (s : string) :
  trimTrailingSlashes (stripTrailingSlash s) = trimTrailingSlashes s.
Proof.
  induction s as [|c s IH]; [reflexivity |].
  destruct s as [|d s'].
  - simpl. destruct (isSlash c) eqn:E; simpl; now rewrite ?E.
  - change (stripTrailingSlash (String c (String d s')))
      with (String c (stripTrailingSlash (String d s'))).
    change (trimTrailingSlashes (String c (stripTrailingSlash (String d s'))))
      with (match trimTrailingSlashes (stripTrailingSlash (String d s')) with
            | EmptyString => if isSlash c then EmptyString else String c EmptyString
            | t => String c t
            end).
    rewrite IH. reflexivity.
Qed.

(** With at most one slash to remove on each side, the code's URL is the
    specification's. *)
Lemma joinUrl_meets_spec (baseUrl : option string) (url : string) :
  endsWithSlash (stripTrailingSlash (orElse baseUrl "")) = false ->
  startsWithSlash (stripLeadingSlash url) = false ->
  joinUrl baseUrl url = specJoinedUrl baseUrl url.
Proof.
  intros HB HP. unfold joinUrl, specJoinedUrl.
  replace (match baseUrl with Some b => b | None => "" end)
    with (orElse baseUrl "") by (destruct baseUrl; reflexivity).
  rewrite <- (trimTrailingSlashes_strip (orElse baseUrl "")).
  rewrite <- (trimLeadingSlashes_strip url).
  rewrite (trimTrailingSlashes_fixed _ HB), (trimLeadingSlashes_fixed _ HP).
  reflexivity.
Qed.

(** C2 as stated fails: a base ending in two slashes keeps one of them, so
    two slashes stand at the join point. *)
Lemma joinUrl_keeps_extra_slash :
  joinUrl (Some "https://api.test//") "/v1/x" = "https://api.test//v1/x"
  /\ specJoinedUrl (Some "https://api.test//") "/v1/x" = "https://api.test/v1/x"
  /\ joinUrl (Some "https://api.test//") "/v1/x"
     <> specJoinedUrl (Some "https://api.test//") "/v1/x".
Proof.
  repeat split; try reflexivity. discriminate.
Qed.

(** C2, amended: [execute] removes at most one trailing slash of the base
    (null read as the empty string) and at most one leading slash of the
    path and joins the two with one slash; the result is the contents
    joined by exactly one slash precisely when the base ends in at most one
    slash and the path starts with at most one slash. *)
Theorem joinUrl_one_slash_iff (baseUrl : option string) (url : string) :
  joinUrl baseUrl url
    = (stripTrailingSlash (orElse baseUrl "") ++ "/" ++ stripLeadingSlash url)%string
  /\ (joinUrl baseUrl url = specJoinedUrl baseUrl url
      <-> endsWithSlash (stripTrailingSlash (orElse baseUrl "")) = false
          /\ startsWithSlash (stripLeadingSlash url) = false).
Proof.
  split; [destruct baseUrl; reflexivity |].
  split.
  - intros H.
    apply (f_equal String.length) in H.
    unfold joinUrl, specJoinedUrl in H.
    replace (match baseUrl with Some b => b | None => "" end)
      with (orElse baseUrl "") in H by (destruct baseUrl; reflexivity).
    rewrite !length_append in H. simpl in H.
    pose proof (trimTrailingSlashes_length (stripTrailingSlash (orElse baseUrl ""))) as LB.
    pose proof (trimLeadingSlashes_length (stripLeadingSlash url)) as LP.
    rewrite trimTrailingSlashes_strip in LB.
    rewrite trimLeadingSlashes_strip in LP.
    split.
    + destruct (endsWithSlash (stripTrailingSlash (orElse baseUrl ""))) eqn:E;
        [| reflexivity].
      apply trimTrailingSlashes_shorter in E.
      rewrite trimTrailingSlashes_strip in E. lia.
    + destruct (startsWithSlash (stripLeadingSlash url)) eqn:E; [| reflexivity].
      apply trimLeadingSlashes_shorter in E.
      rewrite trimLeadingSlashes_strip in E. lia.
  - intros [HB HP]. now apply joinUrl_meets_spec.
Qed.

Example joinUrl_spec_example :
  joinUrl (Some "https://api.test/") "/v1/x" = "https://api.test/v1/x".
Proof. reflexivity. Qed.

Example joinUrl_null_base : joinUrl None "v1/x" = "/v1/x".
Proof. reflexivity. Qed.

Example appendQuery_empty : appendQuery "https://api.test/v1/x" "" = "https://api.test/v1/x".
Proof. reflexivity. Qed.

(* ------------------------------------------------------------------ *)
(** ** Request construction and the request interceptors *)

Lemma foldRequest_fold_left (interceptors : list RequestInterceptor) :
  forall request w,
    foldRequest interceptors request w = fold_left chain interceptors (request, w).
Proof.
  induction interceptors as [|i rest IH]; intros request w; simpl; [reflexivity |].
  unfold chain at 2. simpl.
  destruct (i request w) as [request' w']. apply IH.
Qed.

Lemma foldRequest_app (l1 l2 : list RequestInterceptor) request w :
  foldRequest (l1 ++ l2) request w
  = foldRequest l2 (fst (foldRequest l1 request w)) (snd (foldRequest l1 request w)).
Proof.
  rewrite !foldRequest_fold_left, fold_left_app.
  now destruct (fold_left chain l1 (request, w)).
Qed.

Lemma foldRequest_tags (tags : list string) :
  forall request w,
    foldRequest (map tagInterceptor tags) request w
    = (Request.mk (Request.url request)
         (Request.headers request ++ map (fun t => ("X-Tag", t)) tags)
         (Request.params request) (Request.body request), w).
Proof.
  induction tags as [|t tags IH]; intros request w; simpl.
  - rewrite app_nil_r. now destruct request.
  - rewrite IH. simpl. unfold Headers_append.
    now rewrite <- app_assoc.
Qed.

Lemma execute_returns this method url params body options w :
  execute this method url params body options w
  = Returns
      (executor method (effectiveTimeout this options)
         (fst (constructRequest this url params body options w))
         (newPromise newAbortController options
            (snd (constructRequest this url params body options w)))).
Proof.
  unfold execute.
  now destruct (constructRequest this url params body options w).
Qed.

Lemma executor_fetchCalls method t request st :
  fetchCalls (executor method t request st)
  = fetchCalls st ++ [fetchCallOf request method].
Proof.
  unfold executor. destruct (t >=? 0); reflexivity.
Qed.

Lemma executor_world method t request st :
  world (executor method t request st) = world st.
Proof.
  unfold executor. destruct (t >=? 0); reflexivity.
Qed.

Lemma executor_timer method t request st :
  timeoutTimeout (executor method t request st)
  = if t >=? 0 then TimerArmed t else timeoutTimeout st.
Proof.
  unfold executor. destruct (t >=? 0); reflexivity.
Qed.

(** C4: the request passed to the transport is the left fold of the
    registered request interceptors, in registration order, over the
    request built from the arguments; each interceptor receives what its
    predecessor returned, and one registered later runs after those
    registered before.  With interceptors that append tags, the tags
    arrive in registration order. *)
Theorem request_interceptors_fold
    this method url params body options w :
  let folded :=
    fold_left chain (requestInterceptors this)
      (initialRequest this url params body options, w) in
  (exists st,
      execute this method url params body options w = Returns st
      /\ fetchCalls st = [fetchCallOf (fst folded) method]
      /\ world st = snd folded)
  /\ (forall i rest acc, fold_left chain (i :: rest) acc
                         = fold_left chain rest (i (fst acc) (snd acc)))
  /\ (forall i,
         constructRequest (addRequestInterceptor this i) url params body options w
         = chain (constructRequest this url params body options w) i)
  /\ (forall tags st,
         requestInterceptors this = map tagInterceptor tags ->
         execute this method url params body options w = Returns st ->
         map fc_headers (fetchCalls st)
         = [Request.headers (initialRequest this url params body options)
              ++ map (fun t => ("X-Tag", t)) tags]).
Proof.
  cbv zeta. split; [| split; [| split]].
  - eexists. split; [apply execute_returns |].
    rewrite executor_fetchCalls, executor_world.
    unfold constructRequest. rewrite foldRequest_fold_left. split; reflexivity.
  - reflexivity.
  - intros i. unfold constructRequest, addRequestInterceptor, chain. simpl.
    change (initialRequest _ url params body options)
      with (initialRequest this url params body options).
    rewrite foldRequest_app. simpl.
    now destruct (i _ _).
  - intros tags st Htags Hex.
    rewrite execute_returns in Hex. injection Hex as <-.
    rewrite executor_fetchCalls. unfold constructRequest.
    rewrite Htags, foldRequest_tags. reflexivity.
Qed.

Example request_tags_in_order :
  map fc_headers (fetchCalls (sampleStart None)) = [[("X-Tag", "a"); ("X-Tag", "b")]].
Proof. reflexivity. Qed.

(** Header expansion: a sequence value gives one entry per element, in
    order, under the same name. *)
Lemma appendEach_app headers key vs :
  appendEach headers key vs = headers ++ map (fun v => (key, v)) vs.
Proof.
  revert headers. induction vs as [|v vs IH]; intros headers; simpl.
  - now rewrite app_nil_r.
  - rewrite IH. unfold Headers_append. now rewrite <- app_assoc.
Qed.

Example expandHeaders_sequence :
  expandHeaders Headers_new [("Accept", HeaderArray ["a"; "b"]); ("X", HeaderString "y")]
  = [("Accept", "a"); ("Accept", "b"); ("X", "y")].
Proof. reflexivity. Qed.

(* ------------------------------------------------------------------ *)
(** ** The pre-flight check *)

(** C9: when the signal is aborted at the check, [execute] throws the
    cancellation indication and builds no promise, so no transport call is
    made; but the controller is created inside the call and nothing before
    the check aborts it, so [execute] never takes that branch: it always
    returns, with the signal not aborted and exactly one transport call. *)
Theorem preflight_cancellation_unreachable
    this method url params body options w :
  (forall c w' k,
      aborted c = true -> preflight c w' k = Throws (RejectedPromise "canceled") w')
  /\ (forall v w', execute this method url params body options w <> Throws v w')
  /\ (exists st,
        execute this method url params body options w = Returns st
        /\ abortController st = newAbortController
        /\ aborted (abortController st) = false
        /\ length (fetchCalls st) = 1%nat).
Proof.
  split; [| split].
  - intros c w' k H. unfold preflight. now rewrite H.
  - intros v w'. rewrite execute_returns. discriminate.
  - eexists. split; [apply execute_returns |].
    rewrite executor_fetchCalls.
    unfold executor. destruct (effectiveTimeout this options >=? 0); simpl; auto.
Qed.

(* ------------------------------------------------------------------ *)
(** ** The earlier variant *)

Lemma legacy_appendEach key vs :
  forall headers,
    fold_left (fun h v => Headers_append h key v) vs headers
    = appendEach headers key vs.
Proof.
  induction vs as [|v vs IH]; intros headers; simpl; [reflexivity | apply IH].
Qed.

Lemma legacy_expandHeaders_from (headersObject : HeadersObject) :
  forall headers,
    fold_left
      (fun headers (entry : string * RequestHeaderValue) =>
         let '(headerKey, headerValue) := entry in
         match headerValue with
         | HeaderString s => Headers_append headers headerKey s
         | HeaderArray vs =>
             fold_left (fun h v => Headers_append h headerKey v) vs headers
         end)
      headersObject headers
    = expandHeaders headers headersObject.
Proof.
  induction headersObject as [|[key value] rest IH]; intros headers; simpl;
    [reflexivity |].
  destruct value as [s | vs].
  - apply IH.
  - rewrite legacy_appendEach. apply IH.
Qed.

Lemma legacy_expandHeaders headersObject :
  Legacy.expandHeaders headersObject = expandHeaders Headers_new headersObject.
Proof. apply legacy_expandHeaders_from. Qed.

Lemma legacy_request this method url params body options w :
  (Legacy.request (Legacy.execute this method url params body options w),
   Legacy.world (Legacy.execute this method url params body options w))
  = constructRequest this url params body options w.
Proof.
  unfold Legacy.execute, constructRequest, initialRequest.
  rewrite legacy_expandHeaders, foldRequest_fold_left.
  replace (orElse match options with Some o => opt_headers o | None => None end [])
    with (headersObjectOf options) by (destruct options; reflexivity).
  change (fun (acc : Request.t * World) (requestInterceptor : RequestInterceptor) =>
            requestInterceptor (fst acc) (snd acc)) with chain.
  unfold joinUrl, appendQuery.
  replace (orElse (baseUrl this) "")
    with (match baseUrl this with Some b => b | None => "" end)
    by (destruct (baseUrl this); reflexivity).
  match goal with |- context [fold_left chain ?l ?a] =>
    destruct (fold_left chain l a) as [request w'] end.
  reflexivity.
Qed.

Lemma legacy_timer this method url params body options w :
  Legacy.timer (Legacy.execute this method url params body options w)
  = if effectiveTimeout this options <=? 0
    then TimerArmed (effectiveTimeout this options) else TimerNone.
Proof.
  unfold Legacy.execute.
  replace (orElse match options with Some o => opt_timeout o | None => None end
             (timeout this))
    with (effectiveTimeout this options) by (destruct options; reflexivity).
  match goal with |- context [fold_left ?f ?l ?a] =>
    destruct (fold_left f l a) as [request w'] end.
  reflexivity.
Qed.

Lemma legacy_fetchCall this method url params body options w :
  let legacy := Legacy.execute this method url params body options w in
  Legacy.fetchCall legacy
  = {| fc_url := Request.url (Legacy.request legacy);
       fc_method := None;
       fc_headers := Request.headers (Legacy.request legacy);
       fc_body := Request.body (Legacy.request legacy);
       fc_signal := false |}.
Proof.
  cbv zeta. unfold Legacy.execute.
  match goal with |- context [fold_left ?f ?l ?a] =>
    destruct (fold_left f l a) as [request w'] end.
  reflexivity.
Qed.

(** C10 as stated fails: with an effective timeout of -1 the earlier
    variant has armed a timer before its transport call and the current one
    has not, so the two do not agree on all they did before the call. *)
Lemma legacy_disagrees_on_timer :
  ~ agreeBeforeFetch sampleFetcher GET "/v1/x" [] VNull (withTimeout (-1)) emptyWorld.
Proof.
  unfold agreeBeforeFetch. cbv zeta. rewrite execute_returns.
  intros (_ & _ & H). vm_compute in H. discriminate.
Qed.

(** C10, amended: for every input the two variants build the same request
    value, leave the interceptor-visible state the same, and pass the same
    URL, headers and body to the transport.  The agreement is about the
    request; the timers armed before the call are not part of it. *)
Theorem request_construction_matches_legacy
    this method url params body options w :
  let legacy := Legacy.execute this method url params body options w in
  constructRequest this url params body options w
    = (Legacy.request legacy, Legacy.world legacy)
  /\ exists st c,
       execute this method url params body options w = Returns st
       /\ world st = Legacy.world legacy
       /\ fetchCalls st = [c]
       /\ fc_url c = fc_url (Legacy.fetchCall legacy)
       /\ fc_headers c = fc_headers (Legacy.fetchCall legacy)
       /\ fc_body c = fc_body (Legacy.fetchCall legacy).
Proof.
  cbv zeta.
  pose proof (legacy_request this method url params body options w) as HR.
  split; [now rewrite HR |].
  do 2 eexists. split; [apply execute_returns |].
  rewrite executor_world, executor_fetchCalls, legacy_fetchCall. simpl.
  rewrite <- HR. simpl. repeat split; reflexivity.
Qed.

(** The timers of the two variants coincide only for a timeout of zero. *)
Lemma legacy_timer_agreement this method url params body options w st :
  execute this method url params body options w = Returns st ->
  (timeoutTimeout st
   = Legacy.timer (Legacy.execute this method url params body options w)
   <-> effectiveTimeout this options = 0).
Proof.
  rewrite execute_returns. intros Hex. injection Hex as <-.
  rewrite executor_timer, legacy_timer. simpl.
  destruct (Z.geb_spec (effectiveTimeout this options) 0);
    destruct (Z.leb_spec (effectiveTimeout this options) 0);
    split; intros Heq; try discriminate; try lia.
  replace (effectiveTimeout this options) with 0 by lia. reflexivity.
Qed.

(* ------------------------------------------------------------------ *)
(** ** Observers: response and error interceptors *)

Lemma runResponseInterceptors_eq (interceptors : list ResponseInterceptor) r :
  forall k st,
    runResponseInterceptors interceptors k r st
    = withObservation (afterObservers interceptors r (world st))
        (map (fun i => InvokeResponse i r) (seq k (length interceptors))) st.
Proof.
  induction interceptors as [|i rest IH]; intros k st.
  - simpl. unfold withObservation. rewrite app_nil_r. now destruct st.
  - simpl. destruct (i r (world st)) as [v w] eqn:E.
    rewrite IH. unfold withObservation, afterObservers. simpl.
    now rewrite <- app_assoc.
Qed.

Lemma runErrorInterceptors_eq (interceptors : list ErrorInterceptor) r :
  forall k st,
    runErrorInterceptors interceptors k r st
    = withObservation (afterObservers interceptors r (world st))
        (map (fun i => InvokeError i r) (seq k (length interceptors))) st.
Proof.
  induction interceptors as [|i rest IH]; intros k st.
  - simpl. unfold withObservation. rewrite app_nil_r. now destruct st.
  - simpl. destruct (i r (world st)) as [v w] eqn:E.
    rewrite IH. unfold withObservation, afterObservers. simpl.
    now rewrite <- app_assoc.
Qed.

Lemma onData_eq this fr data st :
  onData this fr data st
  = let r := length (heap (world st)) in
    let w0 := snd (alloc (builtObject fr data) (world st)) in
    if isSuccess fr
    then resolve (VObj r)
           (withObservation (afterObservers (responseInterceptors this) r w0)
              (responseCalls (length (responseInterceptors this)) r) st)
    else reject (VObj r)
           (withObservation (afterObservers (errorInterceptors this) r w0)
              (errorCalls (length (errorInterceptors this)) r) st).
Proof.
  unfold onData, newObject, builtObject. simpl.
  destruct (isSuccess fr).
  - now rewrite runResponseInterceptors_eq.
  - now rewrite runErrorInterceptors_eq.
Qed.

Lemma alloc_deref o w : deref (fst (alloc o w)) (snd (alloc o w)) = Some o.
Proof.
  unfold deref, alloc. simpl.
  rewrite nth_error_app2 by lia. now rewrite Nat.sub_diag.
Qed.

Lemma alloc_fresh o w : deref (fst (alloc o w)) w = None.
Proof.
  unfold deref, alloc. simpl. apply nth_error_None. lia.
Qed.

Lemma afterObservers_sameEffect l l' r :
  Forall2 sameEffect l l' ->
  forall w, afterObservers l r w = afterObservers l' r w.
Proof.
  induction 1 as [|i j l l' Hij _ IH]; intros w; simpl; [reflexivity |].
  unfold afterObservers in *. simpl. rewrite (Hij r w). apply IH.
Qed.

Lemma isSuccess_iff fr :
  isSuccess fr = true
  <-> FetchResponse.ok fr = true
      /\ 200 <= FetchResponse.status fr /\ FetchResponse.status fr < 300.
Proof.
  unfold isSuccess. rewrite !andb_true_iff, Z.ltb_lt, Z.geb_le. tauto.
Qed.

(* ------------------------------------------------------------------ *)
(** ** Invariant of the transition system *)

Lemma Inv_pending_of_armed st d :
  Inv st -> timeoutTimeout st = TimerArmed d -> promise st = Pending.
Proof.
  intros H T. inv_init H.
  destruct (promise st) eqn:P; [reflexivity | |];
    (destruct Hset as [F | F]; [discriminate | |];
     [destruct (Harm d T) as [F' _]; congruence | congruence]).
Qed.

Lemma Inv_start this method url params body options w st :
  execute this method url params body options w = Returns st -> Inv st.
Proof.
  rewrite execute_returns. intros H. injection H as <-.
  unfold executor.
  destruct (effectiveTimeout this options >=? 0);
    constructor; simpl; try tauto; try congruence; try discriminate;
    try (intros; split; auto; fail);
    try (split; intros; [contradiction | discriminate]).
Qed.

Lemma Inv_onTimeout st d :
  Inv st -> timeoutTimeout st = TimerArmed d -> Inv (onTimeout st).
Proof.
  intros H T. pose proof (Inv_pending_of_armed st d H T) as P.
  inv_init H. destruct (Harm d T) as [Hph Hc].
  break st. subst. unfold_ops.
  inv_solve.
Qed.

Lemma Inv_cancel st : Inv st -> Inv (cancel st).
Proof.
  intros H. inv_init H. break st. subst.
  destruct c; unfold_ops.
  - inv_solve.
  - destruct t; simpl in *; subst; unfold_ops; inv_solve.
    all: try (destruct (Harm _ eq_refl); discriminate).
Qed.

Lemma Inv_onFetchFulfilled st fr :
  Inv st -> phase st = AwaitingFetch -> aborted (abortController st) = false ->
  Inv (onFetchFulfilled fr st).
Proof.
  intros H Hph Hna. inv_init H. break st. subst.
  destruct t; simpl in *; unfold_ops; try discriminate.
  all: destruct c; simpl in *; try discriminate.
  all: inv_solve.
Qed.

Lemma Inv_body_pending st fr m :
  Inv st -> phase st = AwaitingBody fr m ->
  promise st = Pending
  /\ (timeoutTimeout st = TimerNone \/ timeoutTimeout st = TimerCleared).
Proof.
  intros H Hph. inv_init H. split; [| eauto].
  destruct (promise st); [reflexivity | |];
    (destruct Hset as [F | F]; [discriminate | congruence |];
     destruct (Hbody _ _ Hph); congruence).
Qed.

Lemma Inv_onFetchRejected st e :
  Inv st -> phase st = AwaitingFetch -> Inv (onFetchRejected e st).
Proof.
  intros H Hph. inv_init H. break st. subst.
  destruct p.
  - destruct t; simpl in *; unfold_ops; inv_solve.
  - assert (t = TimerFired) as -> by (destruct Hset; congruence).
    unfold_ops; inv_solve.
  - assert (t = TimerFired) as -> by (destruct Hset; congruence).
    unfold_ops; inv_solve.
Qed.

Lemma Inv_onBodyRejected st e fr m :
  Inv st -> phase st = AwaitingBody fr m -> Inv (onBodyRejected e st).
Proof.
  intros H Hph. destruct (Inv_body_pending st fr m H Hph) as [P T].
  inv_init H. break st. subst.
  destruct T; subst; unfold_ops; inv_solve.
Qed.

Lemma Inv_onData this st fr m data :
  Inv st -> phase st = AwaitingBody fr m ->
  Inv (onData this fr data (setPhase Finished st)).
Proof.
  intros H Hph. destruct (Inv_body_pending st fr m H Hph) as [P T].
  rewrite onData_eq. cbv zeta.
  inv_init H. break st. subst.
  destruct (isSuccess fr), T; subst; unfold_ops; inv_solve.
Qed.

Lemma Inv_step this st ev : Inv st -> Inv (step this st ev).
Proof.
  intros H. destruct ev as [| | fr | e | data | e]; simpl.
  - destruct (timeoutTimeout st) eqn:T; auto. now apply Inv_onTimeout with delay.
  - now apply Inv_cancel.
  - destruct (phase st) eqn:P; auto.
    destruct (aborted (abortController st)) eqn:A; auto.
    now apply Inv_onFetchFulfilled.
  - destruct (phase st) eqn:P; auto. now apply Inv_onFetchRejected.
  - destruct (phase st) eqn:P; auto. now apply Inv_onData with method.
  - destruct (phase st) eqn:P; auto. now apply Inv_onBodyRejected with fetchResponse method.
Qed.

Lemma reachable_Inv st : reachable st -> Inv st.
Proof.
  induction 1 as [this method url params body options w st Hex | this st ev _ IH].
  - eapply Inv_start; eauto.
  - now apply Inv_step.
Qed.

Lemma reachable_run this st evs :
  reachable st -> reachable (run this st evs).
Proof.
  unfold run. revert st.
  induction evs as [|ev evs IH]; intros st H; simpl; [assumption |].
  apply IH. now constructor.
Qed.

(** The options seen by the callbacks are those passed to [execute]. *)
Lemma step_options this st ev : options (step this st ev) = options st.
Proof.
  destruct ev; simpl.
  - destruct (timeoutTimeout st); reflexivity.
  - unfold cancel.
    assert (forall l s, options (fold_left (fun s cb => runCancelCallback cb s) l s)
                        = options s) as F.
    { induction l as [|[] l IH]; intros s; simpl; [reflexivity |]. now rewrite IH. }
    now rewrite F.
  - destruct (phase st); try reflexivity.
    destruct (aborted (abortController st)); reflexivity.
  - destruct (phase st); reflexivity.
  - destruct (phase st); try reflexivity.
    rewrite onData_eq. cbv zeta.
    destruct (isSuccess fetchResponse); reflexivity.
  - destruct (phase st); reflexivity.
Qed.

Lemma run_options this evs : forall st, options (run this st evs) = options st.
Proof.
  unfold run. induction evs as [|ev evs IH]; intros st; simpl; [reflexivity |].
  now rewrite IH, step_options.
Qed.

Lemma execute_options this method url params body opts w st :
  execute this method url params body opts w = Returns st -> options st = opts.
Proof.
  rewrite execute_returns. intros H. injection H as <-.
  unfold executor. destruct (effectiveTimeout this opts >=? 0); reflexivity.
Qed.

(* ------------------------------------------------------------------ *)
(** ** Content negotiation *)

Lemma selectDecoding_spec opts fr :
  selectDecoding opts fr
  = specDecoding (requestedType opts)
      (Headers_get (FetchResponse.headers fr) "Content-Type").
Proof.
  unfold selectDecoding, specDecoding, requestedType.
  destruct (match opts with Some o => opt_responseType o | None => None end)
    as [[]|]; try reflexivity.
  destruct (Headers_get (FetchResponse.headers fr) "Content-Type"); reflexivity.
Qed.

(** C6: when the transport call completes, the body method [execute] calls
    is the one of the explicit [responseType] if the caller gave one,
    whatever the Content-Type; otherwise [json()] if the Content-Type header
    contains "json", otherwise [text()]. *)
Theorem body_decoding_selection
    this method url params body opts w st0 evs fr :
  execute this method url params body opts w = Returns st0 ->
  phase (run this st0 evs) = AwaitingFetch ->
  aborted (abortController (run this st0 evs)) = false ->
  let contentType := Headers_get (FetchResponse.headers fr) "Content-Type" in
  phase (step this (run this st0 evs) (FetchFulfilled fr))
    = AwaitingBody fr (specDecoding (requestedType opts) contentType)
  /\ (forall rt, requestedType opts = Some rt ->
                 specDecoding (requestedType opts) contentType = methodOf rt)
  /\ (requestedType opts = None ->
      specDecoding (requestedType opts) contentType
      = match contentType with
        | Some ct => if includes "json" ct then Mjson else Mtext
        | None => Mtext
        end).
Proof.
  intros Hex Hph Hab. cbv zeta. split; [| split].
  - simpl. rewrite Hph, Hab.
    change (phase (onFetchFulfilled fr (run this st0 evs)))
      with (AwaitingBody fr (selectDecoding (options (run this st0 evs)) fr)).
    rewrite run_options, (execute_options _ _ _ _ _ _ _ _ Hex), selectDecoding_spec.
    reflexivity.
  - intros rt ->. reflexivity.
  - intros ->. simpl.
    destruct (Headers_get (FetchResponse.headers fr) "Content-Type"); reflexivity.
Qed.

Lemma body_decoding_selection_witness :
  phase (step sampleFetcher (run sampleFetcher (sampleStart None) [])
           (FetchFulfilled (jsonResponse 200 true)))
  = AwaitingBody (jsonResponse 200 true) Mjson.
Proof.
  exact (proj1 (body_decoding_selection sampleFetcher GET "/v1/x" [] VNull None
                  emptyWorld (sampleStart None) [] (jsonResponse 200 true)
                  eq_refl eq_refl eq_refl)).
Defined.

Example decoding_json_by_content_type :
  selectDecoding None (jsonResponse 200 true) = Mjson.
Proof. reflexivity. Qed.

Example decoding_text_by_default :
  selectDecoding None (FetchResponse.mk 200 true [("Content-Type", "text/html")]) = Mtext
  /\ selectDecoding None (FetchResponse.mk 200 true []) = Mtext.
Proof. split; reflexivity. Qed.

Example decoding_blob_explicit :
  selectDecoding (Some (mkRequestOptions None None (Some BLOB))) (jsonResponse 200 true)
  = Mblob.
Proof. reflexivity. Qed.

(* ------------------------------------------------------------------ *)
(** ** What an event leaves alone *)

Lemma runCancelCallback_frame cb s :
  isCanceled (runCancelCallback cb s) = isCanceled s
  /\ (timeoutTimeout s = TimerNone \/ timeoutTimeout s = TimerCleared ->
      timeoutTimeout (runCancelCallback cb s) = timeoutTimeout s)
  /\ fetchCalls (runCancelCallback cb s) = fetchCalls s
  /\ invocations (runCancelCallback cb s) = invocations s.
Proof.
  destruct cb. simpl. repeat split. now intros [-> | ->].
Qed.

Lemma runCancelCallbacks_frame cbs :
  forall s,
    let s' := fold_left (fun s cb => runCancelCallback cb s) cbs s in
    isCanceled s' = isCanceled s
    /\ (timeoutTimeout s = TimerNone \/ timeoutTimeout s = TimerCleared ->
        timeoutTimeout s' = timeoutTimeout s)
    /\ fetchCalls s' = fetchCalls s
    /\ invocations s' = invocations s.
Proof.
  induction cbs as [|cb cbs IH]; intros s; cbn [fold_left]; [cbv zeta; auto |].
  specialize (IH (runCancelCallback cb s)). cbv zeta in *.
  destruct IH as (I1 & I2 & I3 & I4).
  destruct (runCancelCallback_frame cb s) as (C1 & C2 & C3 & C4).
  repeat split; try congruence.
  intros T. rewrite I2; rewrite C2; auto.
Qed.

Lemma step_frame this st ev :
  (isCanceled st = true -> isCanceled (step this st ev) = true)
  /\ (timeoutTimeout st = TimerNone \/ timeoutTimeout st = TimerCleared ->
      timeoutTimeout (step this st ev) = timeoutTimeout st)
  /\ fetchCalls (step this st ev) = fetchCalls st.
Proof.
  destruct ev as [| | fr | e | data | e]; simpl.
  - destruct (timeoutTimeout st) eqn:T; simpl; rewrite ?T; repeat split; auto.
    intros [F | F]; discriminate.
  - unfold cancel.
    destruct (runCancelCallbacks_frame (onCancelList st) (setCanceled true [] st))
      as (F1 & F2 & F3 & _).
    cbv zeta in *. rewrite F1, F3. repeat split; auto.
  - destruct (phase st); auto.
    destruct (aborted (abortController st)); auto.
    simpl. repeat split; auto. now intros [-> | ->].
  - destruct (phase st); auto.
    simpl. repeat split; auto. now intros [-> | ->].
  - destruct (phase st); auto. rewrite onData_eq. cbv zeta.
    destruct (isSuccess fetchResponse); simpl; auto.
  - destruct (phase st); simpl; auto.
Qed.

Lemma run_frame this evs :
  forall st,
    (isCanceled st = true -> isCanceled (run this st evs) = true)
    /\ (timeoutTimeout st = TimerNone \/ timeoutTimeout st = TimerCleared ->
        timeoutTimeout (run this st evs) = timeoutTimeout st)
    /\ fetchCalls (run this st evs) = fetchCalls st.
Proof.
  unfold run. induction evs as [|ev evs IH]; intros st; simpl; [auto |].
  destruct (IH (step this st ev)) as (I1 & I2 & I3).
  destruct (step_frame this st ev) as (S1 & S2 & S3).
  repeat split.
  - auto.
  - intros T. rewrite I2; rewrite S2; auto.
  - congruence.
Qed.

(** Calls of error interceptors are made by the body callback only, and
    only for a response that is not a success. *)
Lemma step_error_invocations this st ev i r :
  In (InvokeError i r) (invocations (step this st ev)) ->
  In (InvokeError i r) (invocations st)
  \/ exists fr m data,
       ev = BodyFulfilled data /\ phase st = AwaitingBody fr m /\ isSuccess fr = false.
Proof.
  destruct ev as [| | fr | e | data | e]; simpl.
  - destruct (timeoutTimeout st); simpl; auto.
  - unfold cancel.
    destruct (runCancelCallbacks_frame (onCancelList st) (setCanceled true [] st))
      as (_ & _ & _ & F).
    cbv zeta in F. rewrite F. auto.
  - destruct (phase st); auto.
    destruct (aborted (abortController st)); simpl; auto.
  - destruct (phase st); simpl; auto.
  - destruct (phase st) eqn:P; auto. rewrite onData_eq. cbv zeta.
    destruct (isSuccess fetchResponse) eqn:S.
    + simpl. intros H. apply in_app_or in H. destruct H as [H | H]; auto.
      unfold responseCalls in H. apply in_map_iff in H.
      destruct H as (k & F & _). discriminate.
    + intros _. right. exists fetchResponse, method, data. auto.
  - destruct (phase st); simpl; auto.
Qed.

(* ------------------------------------------------------------------ *)
(** ** Settlement by status *)

Lemma step_body_fulfilled this st fr m data :
  phase st = AwaitingBody fr m ->
  step this st (BodyFulfilled data) = onData this fr data (setPhase Finished st).
Proof. intros H. simpl. now rewrite H. Qed.

(** C1 as stated fails: the classification by status sits in the callback
    of the body promise, so a completed call whose body cannot be decoded
    is not classified.  With status 404 the promise is rejected with the
    decoding fault, no error response is built and no error interceptor
    runs; with status 200 and a successful transport flag the promise is
    rejected all the same. *)
Lemma undecodable_body_skips_classification :
  let e := mkFault "SyntaxError" "Unexpected token" in
  let failed :=
    run sampleFetcher (sampleStart None)
      [FetchFulfilled (jsonResponse 404 false); BodyRejected e] in
  let succeeded :=
    run sampleFetcher (sampleStart None)
      [FetchFulfilled (jsonResponse 200 true); BodyRejected e] in
  (isSuccess (jsonResponse 404 false) = false
   /\ phase failed = Finished
   /\ promise failed = Rejected (VError e)
   /\ invocations failed = []
   /\ world failed = emptyWorld)
  /\ (isSuccess (jsonResponse 200 true) = true
      /\ phase succeeded = Finished
      /\ promise succeeded = Rejected (VError e)
      /\ invocations succeeded = []
      /\ world succeeded = emptyWorld).
Proof. repeat split. Qed.

(** C1, amended: for a completed call whose body has been decoded, the
    promise is fulfilled exactly when the transport reports success and the
    status is in [200, 300), and then with the object
    [{status, data, headers}] built from the transport's response;
    otherwise that object is built as the error response, every error
    interceptor is called on it in registration order, and the promise is
    rejected with it.  When decoding the body fails instead, the promise is
    rejected with the fault whatever the status, nothing is built and no
    interceptor is called. *)
Theorem settle_by_status this st fr m data :
  reachable st ->
  phase st = AwaitingBody fr m ->
  let st' := step this st (BodyFulfilled data) in
  let r := length (heap (world st)) in
  let w0 := snd (alloc (builtObject fr data) (world st)) in
  deref r w0 = Some (builtObject fr data)
  /\ ((exists v, promise st' = Fulfilled v)
      <-> FetchResponse.ok fr = true
          /\ 200 <= FetchResponse.status fr /\ FetchResponse.status fr < 300)
  /\ (isSuccess fr = true ->
      promise st' = Fulfilled (VObj r)
      /\ invocations st'
         = invocations st ++ responseCalls (length (responseInterceptors this)) r
      /\ world st' = afterObservers (responseInterceptors this) r w0)
  /\ (isSuccess fr = false ->
      promise st' = Rejected (VObj r)
      /\ invocations st'
         = invocations st ++ errorCalls (length (errorInterceptors this)) r
      /\ world st' = afterObservers (errorInterceptors this) r w0)
  /\ (forall e,
         let failed := step this st (BodyRejected e) in
         promise failed = Rejected (VError e)
         /\ invocations failed = invocations st
         /\ world failed = world st).
Proof.
  intros Hreach Hph. cbv zeta.
  destruct (Inv_body_pending st fr m (reachable_Inv _ Hreach) Hph) as [P _].
  assert (forall e,
             promise (step this st (BodyRejected e)) = Rejected (VError e)
             /\ invocations (step this st (BodyRejected e)) = invocations st
             /\ world (step this st (BodyRejected e)) = world st) as F.
  { intros e. simpl. rewrite Hph. simpl. now rewrite P. }
  rewrite (step_body_fulfilled _ _ _ _ _ Hph), onData_eq. cbv zeta.
  split; [apply (alloc_deref (builtObject fr data) (world st)) |].
  rewrite <- isSuccess_iff.
  destruct (isSuccess fr); simpl; rewrite P; simpl.
  - split; [split; eauto |]. split; [auto |]. split; [discriminate | exact F].
  - split; [split; [intros [v G]; discriminate | discriminate] |].
    split; [discriminate |]. split; [auto | exact F].
Qed.

Lemma sample_awaiting_body status ok :
  let st := run sampleFetcher (sampleStart None) [FetchFulfilled (jsonResponse status ok)] in
  reachable st
  /\ phase st = AwaitingBody (jsonResponse status ok) Mjson.
Proof.
  cbv zeta. split; [| reflexivity].
  apply reachable_run.
  apply reach_start with sampleFetcher GET "/v1/x" [] VNull None emptyWorld.
  reflexivity.
Qed.

Lemma settle_by_status_witness :
  promise (run sampleFetcher (sampleStart None)
             [FetchFulfilled (jsonResponse 404 false); BodyFulfilled (VStr "gone")])
  = Rejected (VObj 0%nat).
Proof.
  exact (proj1 (proj1 (proj2 (proj2 (proj2
           (settle_by_status sampleFetcher _ (jsonResponse 404 false) Mjson (VStr "gone")
              (proj1 (sample_awaiting_body 404 false))
              (proj2 (sample_awaiting_body 404 false)))))) eq_refl)).
Defined.

Example status_404_rejects :
  let st := run sampleFetcher (sampleStart None)
              [FetchFulfilled (jsonResponse 404 false); BodyFulfilled (VStr "gone")] in
  promise st = Rejected (VObj 0%nat)
  /\ option_map Response.status (deref 0%nat (world st)) = Some 404
  /\ journal (world st) = ["e1"; "e2"].
Proof. repeat split. Qed.

Example status_200_resolves :
  let st := run sampleFetcher (sampleStart None)
              [FetchFulfilled (jsonResponse 200 true); BodyFulfilled (VStr "{}")] in
  promise st = Fulfilled (VObj 0%nat)
  /\ option_map Response.data (deref 0%nat (world st)) = Some (VStr "{}")
  /\ journal (world st) = ["r1"; "r2"].
Proof. repeat split. Qed.

(* ------------------------------------------------------------------ *)
(** ** Observers cannot replace the settled value *)

Lemma afterObservers_preserves l r :
  Forall (preservesObject r) l ->
  forall w, deref r (afterObservers l r w) = deref r w.
Proof.
  induction 1 as [|i l Hi _ IH]; intros w; [reflexivity |].
  unfold afterObservers in *. simpl. now rewrite IH, (Hi w).
Qed.

(** C5: the callback builds the object [{status, data, headers}] from the
    transport's result under a fresh reference [r], calls the response
    interceptors (for a success) or the error interceptors (otherwise) in
    registration order, each on [r] and in the world its predecessor left,
    and then settles the promise with [r] itself.  What the interceptors
    return has no influence: interceptors with the same effects and other
    return values give the same state.  The world after the call is the
    one their effects produce, one after the other, from the world holding
    the new object; unless one of them changes the object in place, the
    settled reference still holds the object as built. *)
Theorem observers_return_values_discarded this this' fr data st :
  promise st = Pending ->
  Forall2 sameEffect (responseInterceptors this) (responseInterceptors this') ->
  Forall2 sameEffect (errorInterceptors this) (errorInterceptors this') ->
  let r := length (heap (world st)) in
  let w0 := snd (alloc (builtObject fr data) (world st)) in
  let st' := onData this fr data st in
  onData this' fr data st = st'
  /\ deref r (world st) = None
  /\ deref r w0 = Some (builtObject fr data)
  /\ (isSuccess fr = true ->
      promise st' = Fulfilled (VObj r)
      /\ settleCalls st' = settleCalls st ++ [CallResolve (VObj r)]
      /\ invocations st'
         = invocations st ++ responseCalls (length (responseInterceptors this)) r
      /\ world st' = afterObservers (responseInterceptors this) r w0
      /\ (Forall (preservesObject r) (responseInterceptors this) ->
          deref r (world st') = Some (builtObject fr data)))
  /\ (isSuccess fr = false ->
      promise st' = Rejected (VObj r)
      /\ settleCalls st' = settleCalls st ++ [CallReject (VObj r)]
      /\ invocations st'
         = invocations st ++ errorCalls (length (errorInterceptors this)) r
      /\ world st' = afterObservers (errorInterceptors this) r w0
      /\ (Forall (preservesObject r) (errorInterceptors this) ->
          deref r (world st') = Some (builtObject fr data))).
Proof.
  intros P HR HE. cbv zeta.
  pose proof (alloc_deref (builtObject fr data) (world st)) as HD.
  change (fst (alloc (builtObject fr data) (world st)))
    with (length (heap (world st))) in HD.
  rewrite !onData_eq. cbv zeta.
  rewrite <- (afterObservers_sameEffect _ _ _ HR), <- (afterObservers_sameEffect _ _ _ HE).
  assert (length (responseInterceptors this') = length (responseInterceptors this))
    as -> by (symmetry; apply (Forall2_length HR)).
  assert (length (errorInterceptors this') = length (errorInterceptors this))
    as -> by (symmetry; apply (Forall2_length HE)).
  split; [reflexivity |].
  split; [apply (alloc_fresh (builtObject fr data) (world st)) |].
  split; [exact HD |].
  destruct (isSuccess fr); simpl; rewrite P; simpl.
  - split; [| discriminate]. intros _. repeat split.
    intros HF. now rewrite (afterObservers_preserves _ _ HF).
  - split; [discriminate |]. intros _. repeat split.
    intros HF. now rewrite (afterObservers_preserves _ _ HF).
Qed.

Lemma observers_return_values_discarded_witness :
  onData quietFetcher (jsonResponse 200 true) (VStr "{}")
    (newPromise newAbortController None emptyWorld)
  = onData sampleFetcher (jsonResponse 200 true) (VStr "{}")
      (newPromise newAbortController None emptyWorld).
Proof.
  refine (proj1 (observers_return_values_discarded sampleFetcher quietFetcher
                   (jsonResponse 200 true) (VStr "{}")
                   (newPromise newAbortController None emptyWorld) eq_refl _ _));
    repeat constructor.
Defined.

(* ------------------------------------------------------------------ *)
(** ** Faults of the transport and of the body decoding *)

(** C7: a fault raised by the transport call or while the body is decoded
    is passed to [reject] as it is, no interceptor runs and the world is
    untouched; a promise that is still pending is rejected with the fault
    (while the body is decoded it always is).  Error interceptors are
    called by the status branch only: an event adds a call of one only if
    it delivers a decoded body for a response that is not a success. *)
Theorem faults_bypass_error_interceptors this st e :
  reachable st ->
  (phase st = AwaitingFetch ->
   let st' := step this st (FetchRejected e) in
   settleCalls st' = settleCalls st ++ [CallReject (VError e)]
   /\ invocations st' = invocations st
   /\ world st' = world st
   /\ (promise st = Pending -> promise st' = Rejected (VError e)))
  /\ (forall fr m,
         phase st = AwaitingBody fr m ->
         let st' := step this st (BodyRejected e) in
         settleCalls st' = [CallReject (VError e)]
         /\ invocations st' = invocations st
         /\ world st' = world st
         /\ promise st' = Rejected (VError e))
  /\ (forall ev i r,
         In (InvokeError i r) (invocations (step this st ev)) ->
         In (InvokeError i r) (invocations st)
         \/ exists fr m data,
              ev = BodyFulfilled data
              /\ phase st = AwaitingBody fr m
              /\ isSuccess fr = false).
Proof.
  intros Hreach. pose proof (reachable_Inv _ Hreach) as HI.
  split; [| split].
  - intros Hph. cbv zeta. simpl. rewrite Hph. simpl.
    repeat split. now intros ->.
  - intros fr m Hph. cbv zeta.
    destruct (Inv_body_pending st fr m HI Hph) as [P _].
    apply (inv_pending st HI) in P as Hsc.
    simpl. rewrite Hph. simpl. rewrite P, Hsc. repeat split.
  - intros ev i r. apply step_error_invocations.
Qed.

Lemma sample_reachable opts evs :
  reachable (run sampleFetcher (sampleStart opts) evs).
Proof.
  apply reachable_run.
  apply reach_start with sampleFetcher GET "/v1/x" [] VNull opts emptyWorld.
  reflexivity.
Qed.

Lemma faults_bypass_error_interceptors_witness :
  promise (step sampleFetcher (sampleStart None) (FetchRejected networkError))
  = Rejected (VError networkError).
Proof.
  exact (proj2 (proj2 (proj2
           (proj1 (faults_bypass_error_interceptors sampleFetcher (sampleStart None)
                     networkError (sample_reachable None []))
              eq_refl))) eq_refl).
Defined.

Example network_fault_run :
  let st := run sampleFetcher (sampleStart None) [FetchRejected networkError] in
  promise st = Rejected (VError networkError)
  /\ invocations st = [] /\ journal (world st) = []
  /\ timeoutTimeout st = TimerCleared.
Proof. repeat split. Qed.

Example decoding_fault_run :
  let st := run sampleFetcher (sampleStart None)
              [FetchFulfilled (jsonResponse 500 false);
               BodyRejected (mkFault "SyntaxError" "Unexpected token")] in
  promise st = Rejected (VError (mkFault "SyntaxError" "Unexpected token"))
  /\ invocations st = [] /\ journal (world st) = [].
Proof. repeat split. Qed.

(* ------------------------------------------------------------------ *)
(** ** Cancellation *)

Lemma reachable_fetchCalls st :
  reachable st -> exists request method, fetchCalls st = [fetchCallOf request method].
Proof.
  induction 1 as [this method url params body options w st Hex | this st ev _ IH].
  - rewrite execute_returns in Hex. injection Hex as <-.
    rewrite executor_fetchCalls. simpl. eauto.
  - destruct (step_frame this st ev) as (_ & _ & F). now rewrite F.
Qed.

Lemma Inv_pending_not_fired st :
  Inv st -> promise st = Pending -> timeoutTimeout st <> TimerFired.
Proof.
  intros HI P F.
  apply (inv_timeoutCall st HI) in F.
  apply (inv_pending st HI) in P. rewrite P in F. destruct F.
Qed.

Lemma cancel_timer st :
  Inv st -> promise st = Pending ->
  let st1 := cancel st in
  isCanceled st1 = true
  /\ (timeoutTimeout st1 = TimerNone \/ timeoutTimeout st1 = TimerCleared)
  /\ (forall d, timeoutTimeout st = TimerArmed d -> timeoutTimeout st1 = TimerCleared).
Proof.
  intros HI P. cbv zeta.
  pose proof (Inv_pending_not_fired st HI P) as NF.
  pose proof (inv_cancelList st HI) as HL.
  pose proof (inv_armed st HI) as HA.
  unfold cancel. rewrite HL.
  destruct (isCanceled st); simpl.
  - split; [reflexivity |]. split.
    + destruct (timeoutTimeout st) eqn:T; auto.
      * destruct (HA _ eq_refl); discriminate.
      * now destruct NF.
    + intros d T. destruct (HA _ T); discriminate.
  - split; [reflexivity |]. split.
    + destruct (timeoutTimeout st) eqn:T; auto. now destruct NF.
    + now intros d ->.
Qed.

(** C8: cancelling a call whose promise is still pending leaves the abort
    signal triggered, the transport having seen the abort event once, and
    an armed timer cleared; whatever happens afterwards, the signal is not
    dispatched again, [abort()] is not called again, the timer does not
    fire and the promise is never rejected with the timeout indication.
    The call made exactly one transport request, which was given the
    signal. *)
Theorem cancel_aborts_once_and_clears_timer this st evs :
  reachable st ->
  promise st = Pending ->
  let st1 := step this st CancelCalled in
  let st2 := run this st1 evs in
  (aborted (abortController st1) = true
   /\ abortEvents (abortController st1) = 1%nat
   /\ (timeoutTimeout st1 = TimerNone \/ timeoutTimeout st1 = TimerCleared)
   /\ (forall d, timeoutTimeout st = TimerArmed d -> timeoutTimeout st1 = TimerCleared))
  /\ (abortEvents (abortController st2) = 1%nat
      /\ abortCalls (abortController st2) = 1%nat
      /\ timeoutTimeout st2 = timeoutTimeout st1
      /\ ~ In timeoutReject (settleCalls st2)
      /\ promise st2 <> Rejected (VStr "timeout")
      /\ exists request method, fetchCalls st2 = [fetchCallOf request method]).
Proof.
  intros Hreach P. cbv zeta.
  pose proof (reachable_Inv _ Hreach) as HI.
  destruct (cancel_timer st HI P) as (C1 & C2 & C3).
  change (step this st CancelCalled) with (cancel st).
  assert (reachable (cancel st)) as R1
      by (change (cancel st) with (step this st CancelCalled); now apply reach_step).
  assert (forall s, reachable s -> isCanceled s = true ->
                    (timeoutTimeout s = TimerNone \/ timeoutTimeout s = TimerCleared) ->
                    aborted (abortController s) = true
                    /\ abortEvents (abortController s) = 1%nat
                    /\ abortCalls (abortController s) = 1%nat
                    /\ ~ In timeoutReject (settleCalls s)
                    /\ promise s <> Rejected (VStr "timeout")) as K.
  { intros s Rs Cs Ts. pose proof (reachable_Inv _ Rs) as Is.
    assert (abortCalls (abortController s) = 1%nat) as N.
    { rewrite (inv_abortCalls s Is), Cs. destruct Ts as [-> | ->]; reflexivity. }
    assert (~ In timeoutReject (settleCalls s)) as NT.
    { intros F. apply (inv_timeoutCall s Is) in F.
      destruct Ts as [T | T]; rewrite T in F; discriminate. }
    rewrite (inv_aborted s Is), (inv_abortEvents s Is), N.
    repeat split; auto.
    intros F. apply NT. apply (inv_rejected s Is) in F. exact F. }
  destruct (run_frame this evs (cancel st)) as (F1 & F2 & _).
  destruct (K _ R1 C1 C2) as (K1 & K2 & _).
  split; [auto |].
  destruct (K _ (reachable_run this _ evs R1) (F1 C1)) as (_ & K3 & K4 & K5 & K6).
  { rewrite (F2 C2). exact C2. }
  rewrite (F2 C2). repeat split; auto.
  apply reachable_fetchCalls. now apply reachable_run.
Qed.

Lemma cancel_aborts_once_and_clears_timer_witness :
  let st1 := step sampleFetcher (sampleStart None) CancelCalled in
  let st2 := run sampleFetcher st1 [FetchRejected abortError; CancelCalled; TimerExpired] in
  abortEvents (abortController st2) = 1%nat
  /\ abortCalls (abortController st2) = 1%nat
  /\ timeoutTimeout st2 = timeoutTimeout st1
  /\ ~ In timeoutReject (settleCalls st2)
  /\ promise st2 <> Rejected (VStr "timeout")
  /\ exists request method, fetchCalls st2 = [fetchCallOf request method].
Proof.
  exact (proj2 (cancel_aborts_once_and_clears_timer sampleFetcher (sampleStart None)
                  [FetchRejected abortError; CancelCalled; TimerExpired]
                  (sample_reachable None []) eq_refl)).
Defined.

Example cancel_run :
  let st := run sampleFetcher (sampleStart None)
              [CancelCalled; FetchRejected abortError; TimerExpired; CancelCalled] in
  isCanceled st = true
  /\ abortController st = {| aborted := true; abortCalls := 1; abortEvents := 1 |}
  /\ timeoutTimeout st = TimerCleared
  /\ settleCalls st = [CallReject (VError abortError)].
Proof. repeat split. Qed.

(* ------------------------------------------------------------------ *)
(** ** The timeout timer *)

(** The timer is armed exactly for a timeout that is not negative. *)
Lemma timer_armed_iff this method url params body opts w st :
  execute this method url params body opts w = Returns st ->
  timeoutTimeout st
  = if effectiveTimeout this opts >=? 0
    then TimerArmed (effectiveTimeout this opts) else TimerNone.
Proof.
  rewrite execute_returns. intros H. injection H as <-.
  now rewrite executor_timer.
Qed.

(** X3: a negative timeout disables the mechanism for the whole call: no
    timer exists at any point and [reject] is never called with the
    timeout indication. *)
Lemma negative_timeout_disabled this method url params body opts w st evs :
  execute this method url params body opts w = Returns st ->
  effectiveTimeout this opts < 0 ->
  timeoutTimeout (run this st evs) = TimerNone
  /\ ~ In timeoutReject (settleCalls (run this st evs)).
Proof.
  intros Hex Hneg.
  pose proof (timer_armed_iff _ _ _ _ _ _ _ _ Hex) as T.
  destruct (Z.geb_spec (effectiveTimeout this opts) 0); [lia |].
  destruct (run_frame this evs st) as (_ & F & _).
  rewrite (F (or_introl T)), T. split; [reflexivity |].
  intros I.
  assert (reachable (run this st evs)) as R
      by (apply reachable_run; econstructor; eauto).
  apply (inv_timeoutCall _ (reachable_Inv _ R)) in I.
  rewrite (F (or_introl T)), T in I. discriminate.
Qed.

(** C3 at the failing input: with an effective timeout of 0 the timer is
    armed (with delay 0); when it fires, the signal is aborted by the timer
    callback and the promise is rejected with the timeout indication. *)
Theorem timeout_zero_arms_timer :
  let st := sampleStart (withTimeout 0) in
  let st' := step sampleFetcher st TimerExpired in
  effectiveTimeout sampleFetcher (withTimeout 0) = 0
  /\ timeoutTimeout st = TimerArmed 0
  /\ timeoutTimeout st' = TimerFired
  /\ aborted (abortController st') = true
  /\ promise st' = Rejected (VStr "timeout").
Proof. repeat split. Qed.

(** The same for every call: a timeout of zero arms the timer. *)
Lemma timeout_zero_armed this method url params body opts w st :
  execute this method url params body opts w = Returns st ->
  effectiveTimeout this opts = 0 ->
  timeoutTimeout st = TimerArmed 0
  /\ promise (step this st TimerExpired) = Rejected (VStr "timeout")
  /\ aborted (abortController (step this st TimerExpired)) = true.
Proof.
  intros Hex Hz.
  pose proof (timer_armed_iff _ _ _ _ _ _ _ _ Hex) as T.
  rewrite Hz in T. simpl in T.
  assert (promise st = Pending) as P.
  { rewrite execute_returns in Hex. injection Hex as <-.
    unfold executor. destruct (effectiveTimeout this opts >=? 0); reflexivity. }
  split; [exact T |]. simpl. rewrite T. simpl. rewrite P. auto.
Qed.

(* ------------------------------------------------------------------ *)
(** ** Further properties of the request and of the timer *)

Lemma expandHeaders_flat (headersObject : HeadersObject) :
  forall headers,
    expandHeaders headers headersObject
    = headers ++ flat_map headerEntries headersObject.
Proof.
  induction headersObject as [|[key value] rest IH]; intros headers; simpl.
  - now rewrite app_nil_r.
  - destruct value as [s | vs]; rewrite IH; simpl.
    + unfold Headers_append. now rewrite <- app_assoc.
    + now rewrite appendEach_app, <- app_assoc.
Qed.

(** X1, header expansion: the headers of the request are the entries of the
    headers option, key by key in the order in which [for ... in]
    enumerates the keys of the object, a single value giving one entry and
    a sequence one entry per element, in order. *)
Theorem request_headers_expanded this url params body options :
  Request.headers (initialRequest this url params body options)
  = flat_map headerEntries (headersObjectOf options).
Proof.
  unfold initialRequest. simpl. apply expandHeaders_flat.
Qed.

(** X2, query omission: an empty serialization appends nothing, and any other
    is appended after a question mark. *)
Theorem query_appended_iff_nonempty this url params body options :
  (paramsSerializer this params = "" ->
   Request.url (initialRequest this url params body options)
   = joinUrl (baseUrl this) url)
  /\ (paramsSerializer this params <> "" ->
      Request.url (initialRequest this url params body options)
      = (joinUrl (baseUrl this) url ++ "?" ++ paramsSerializer this params)%string).
Proof.
  unfold initialRequest, appendQuery. simpl. split.
  - now intros ->.
  - intros H. destruct (paramsSerializer this params); [now destruct H | reflexivity].
Qed.

(** X4: no timer stays armed once the transport promise has settled or the
    call was canceled. *)
Theorem no_armed_timer_left st :
  reachable st ->
  phase st <> AwaitingFetch \/ isCanceled st = true ->
  forall d, timeoutTimeout st <> TimerArmed d.
Proof.
  intros Hreach H d T.
  destruct (inv_armed st (reachable_Inv _ Hreach) d T) as [Hph Hc].
  destruct H as [H | H]; congruence.
Qed.

Lemma no_armed_timer_left_witness :
  timeoutTimeout (run sampleFetcher (sampleStart None)
                    [FetchFulfilled (jsonResponse 200 true)])
  <> TimerArmed defaultTimeout.
Proof.
  refine (no_armed_timer_left _ (sample_reachable None _) _ defaultTimeout).
  left. discriminate.
Defined.

Lemma negative_timeout_disabled_witness :
  timeoutTimeout (run sampleFetcher (sampleStart (withTimeout (-1)))
                    [TimerExpired; FetchRejected networkError])
  = TimerNone.
Proof.
  refine (proj1 (negative_timeout_disabled sampleFetcher GET "/v1/x" [] VNull
                   (withTimeout (-1)) emptyWorld _ _ eq_refl _)).
  reflexivity.
Defined.

(** The verb wrappers pass a fixed method and, where they take no body,
    [null]. *)
Lemma verbs_delegate this url params body opts w :
  Verbs.get this url params opts w = execute this GET url params VNull opts w
  /\ Verbs.post this url params body opts w = execute this POST url params body opts w
  /\ Verbs.delete this url params opts w = execute this DELETE url params VNull opts w.
Proof. repeat split. Qed.

(* ------------------------------------------------------------------ *)
(** ** The constructor, the verb wrappers and the URL spellings *)

(** X5: for a client built by the constructor, the timeout of a call is the
    per-call option if given, else the constructor option if given, else
    30000; an explicit 0 counts as given.  The timer armed by [execute]
    follows that value. *)
Theorem constructed_timeout_precedence
    qs base fo method url params body opts w :
  let t := configuredTimeout
             (match opts with Some o => opt_timeout o | None => None end)
             (fo_timeout fo) in
  effectiveTimeout (newFetcher qs base fo) opts = t
  /\ exists st,
       execute (newFetcher qs base fo) method url params body opts w = Returns st
       /\ timeoutTimeout st = if t >=? 0 then TimerArmed t else TimerNone.
Proof.
  cbv zeta.
  assert (effectiveTimeout (newFetcher qs base fo) opts
          = configuredTimeout
              (match opts with Some o => opt_timeout o | None => None end)
              (fo_timeout fo)) as E.
  { unfold effectiveTimeout, configuredTimeout, newFetcher, orElse, defaultTimeout.
    simpl. destruct opts as [[[t|] ? ?]|]; simpl; destruct (fo_timeout fo); reflexivity. }
  split; [exact E |].
  eexists. split; [apply execute_returns |].
  now rewrite executor_timer, E.
Qed.

(** X6: every verb wrapper makes exactly one transport call, with its own
    method, for the request that [execute] builds from the wrapper's
    arguments; the wrappers without a body argument start from a [null]
    body. *)
Theorem verbs_reach_transport this url params body opts w :
  let built b := fst (constructRequest this url params b opts w) in
  sends (Verbs.get this url params opts w) GET (built VNull)
  /\ sends (Verbs.head this url params opts w) HEAD (built VNull)
  /\ sends (Verbs.delete this url params opts w) DELETE (built VNull)
  /\ sends (Verbs.options this url params opts w) OPTIONS (built VNull)
  /\ sends (Verbs.trace this url params opts w) TRACE (built VNull)
  /\ sends (Verbs.post this url params body opts w) POST (built body)
  /\ sends (Verbs.put this url params body opts w) PUT (built body)
  /\ sends (Verbs.patch this url params body opts w) PATCH (built body).
Proof.
  cbv zeta.
  assert (forall m b, sends (execute this m url params b opts w) m
                        (fst (constructRequest this url params b opts w))) as S.
  { intros m b. eexists. split; [apply execute_returns |].
    now rewrite executor_fetchCalls. }
  repeat split; apply S.
Qed.

Lemma stripTrailingSlash_snoc (b : string) :
  stripTrailingSlash (b ++ "/")%string = b.
Proof.
  induction b as [|c b IH]; [reflexivity |].
  simpl. rewrite IH. destruct (b ++ "/")%string eqn:E; [| reflexivity].
  destruct b; discriminate.
Qed.

Lemma stripTrailingSlash_fixed (b : string) :
  endsWithSlash b = false -> stripTrailingSlash b = b.
Proof.
  induction b as [|c b IH]; [reflexivity |].
  destruct b as [|d b'].
  - simpl. now intros ->.
  - intros H. change (stripTrailingSlash (String c (String d b')))
      with (String c (stripTrailingSlash (String d b'))).
    now rewrite (IH H).
Qed.

(** X7: a base written with or without one trailing slash and a path
    written with or without one leading slash give the same URL: the two
    joined by one slash. *)
Theorem joinUrl_spellings (b p : string) :
  endsWithSlash b = false ->
  startsWithSlash p = false ->
  let joined := (b ++ "/" ++ p)%string in
  joinUrl (Some b) p = joined
  /\ joinUrl (Some (b ++ "/")%string) p = joined
  /\ joinUrl (Some b) ("/" ++ p)%string = joined
  /\ joinUrl (Some (b ++ "/")%string) ("/" ++ p)%string = joined.
Proof.
  intros HB HP. cbv zeta. unfold joinUrl.
  rewrite stripTrailingSlash_snoc, (stripTrailingSlash_fixed b HB).
  assert (stripLeadingSlash p = p) as -> by (destruct p; simpl in *; now rewrite ?HP).
  repeat split.
Qed.

Lemma joinUrl_spellings_witness :
  joinUrl (Some "https://dog.ceo/api/") "/breeds/image/random"
  = "https://dog.ceo/api/breeds/image/random".
Proof.
  exact (proj2 (proj2 (proj2
           (joinUrl_spellings "https://dog.ceo/api" "breeds/image/random"
              eq_refl eq_refl)))).
Defined.

(* ------------------------------------------------------------------ *)
(** ** One transport call *)

(** X8: an execution makes one transport call, for the request the
    interceptors returned, and no event that follows (fault, timeout,
    error status, cancellation) makes it call the transport again. *)
Theorem single_transport_call this this' method url params body opts w st evs :
  execute this method url params body opts w = Returns st ->
  fetchCalls (run this' st evs)
  = [fetchCallOf (fst (constructRequest this url params body opts w)) method].
Proof.
  intros Hex. destruct (run_frame this' evs st) as (_ & _ & F). rewrite F.
  rewrite execute_returns in Hex. injection Hex as <-.
  now rewrite executor_fetchCalls.
Qed.

Lemma single_transport_call_witness :
  length (fetchCalls (run sampleFetcher (sampleStart None)
                        [FetchFulfilled (jsonResponse 503 false);
                         BodyFulfilled (VStr "busy"); CancelCalled]))
  = 1%nat.
Proof.
  exact (f_equal (@length FetchCall)
           (single_transport_call sampleFetcher sampleFetcher GET "/v1/x" [] VNull None
              emptyWorld (sampleStart None)
              [FetchFulfilled (jsonResponse 503 false);
               BodyFulfilled (VStr "busy"); CancelCalled]
              eq_refl)).
Defined.

(* ------------------------------------------------------------------ *)
(** ** Outcome and interceptor calls *)

Lemma runCancelCallbacks_keep cbs :
  forall s,
    let s' := fold_left (fun s cb => runCancelCallback cb s) cbs s in
    promise s' = promise s
    /\ phase s' = phase s
    /\ world s' = world s
    /\ settleCalls s' = settleCalls s
    /\ (aborted (abortController s) = true -> aborted (abortController s') = true).
Proof.
  induction cbs as [|[] cbs IH]; intros s; cbn [fold_left]; [cbv zeta; auto 6 |].
  specialize (IH (runCancelCallback AbortAndClearTimer s)). cbv zeta in *.
  destruct IH as (I1 & I2 & I3 & I4 & I5).
  rewrite I1, I2, I3, I4. repeat split. intros _. now apply I5.
Qed.

Lemma cancel_keeps st :
  promise (cancel st) = promise st
  /\ phase (cancel st) = phase st
  /\ world (cancel st) = world st
  /\ settleCalls (cancel st) = settleCalls st
  /\ invocations (cancel st) = invocations st
  /\ (aborted (abortController st) = true ->
      aborted (abortController (cancel st)) = true).
Proof.
  unfold cancel.
  destruct (runCancelCallbacks_keep (onCancelList st) (setCanceled true [] st))
    as (K1 & K2 & K3 & K4 & K5).
  destruct (runCancelCallbacks_frame (onCancelList st) (setCanceled true [] st))
    as (_ & _ & _ & F).
  cbv zeta in *. rewrite K1, K2, K3, K4, F. repeat split. exact K5.
Qed.

Lemma outcome_step this st ev :
  Inv st -> outcomeMatchesCalls st -> outcomeMatchesCalls (step this st ev).
Proof.
  intros HI HO. destruct ev as [| | fr | e | data | e]; simpl.
  - destruct (timeoutTimeout st) eqn:T; auto.
    pose proof (Inv_pending_of_armed st delay HI T) as P.
    unfold outcomeMatchesCalls in *. rewrite P in HO.
    simpl. now rewrite P.
  - destruct (cancel_keeps st) as (K1 & K2 & _ & _ & K5 & _).
    unfold outcomeMatchesCalls in *. now rewrite K1, K2, K5.
  - destruct (phase st) eqn:P; auto.
    destruct (aborted (abortController st)); auto.
    unfold outcomeMatchesCalls in *. simpl.
    destruct (promise st) as [| v | [| | | | r |]]; auto;
      destruct HO as [F _]; congruence.
  - destruct (phase st) eqn:P; auto.
    unfold outcomeMatchesCalls in *. simpl.
    destruct (promise st) as [| v | [| | | | r |]]; auto;
      destruct HO as [F _]; congruence.
  - destruct (phase st) eqn:P; auto.
    destruct (Inv_body_pending st fetchResponse method HI P) as [Pp _].
    rewrite onData_eq. cbv zeta.
    unfold outcomeMatchesCalls in *. rewrite Pp in HO.
    destruct (isSuccess fetchResponse); simpl; rewrite Pp, HO; simpl; eauto.
  - destruct (phase st) eqn:P; auto.
    destruct (Inv_body_pending st fetchResponse method HI P) as [Pp _].
    unfold outcomeMatchesCalls in *. rewrite Pp in HO.
    simpl. now rewrite Pp.
Qed.

(** In every state of a call, whichever client each event saw, the shape of
    the outcome fits the recorded interceptor calls. *)
Lemma reachable_outcomeMatchesCalls st :
  reachable st -> outcomeMatchesCalls st.
Proof.
  induction 1 as [this method url params body options w st Hex | this st ev Hr IH].
  - rewrite execute_returns in Hex. injection Hex as <-.
    unfold outcomeMatchesCalls, executor.
    destruct (effectiveTimeout this options >=? 0); reflexivity.
  - apply outcome_step; [now apply reachable_Inv | exact IH].
Qed.

(* ------------------------------------------------------------------ *)
(** ** The timer *)

Lemma after_timeout_step this w0 st ev :
  aborted (abortController st) = true ->
  phase st = AwaitingFetch \/ phase st = Finished ->
  promise st = Rejected (VStr "timeout") ->
  invocations st = [] ->
  world st = w0 ->
  let st' := step this st ev in
  aborted (abortController st') = true
  /\ (phase st' = AwaitingFetch \/ phase st' = Finished)
  /\ promise st' = Rejected (VStr "timeout")
  /\ invocations st' = []
  /\ world st' = w0.
Proof.
  intros A Ph P I W. cbv zeta.
  destruct ev as [| | fr | e | data | e]; simpl.
  - destruct (timeoutTimeout st); simpl; rewrite ?P; auto 6.
  - destruct (cancel_keeps st) as (K1 & K2 & K3 & _ & K5 & K6).
    rewrite K1, K2, K3, K5. auto 6.
  - destruct Ph as [Ph | Ph]; rewrite Ph; rewrite ?A; auto 6.
  - destruct Ph as [Ph | Ph]; rewrite Ph; simpl; rewrite ?P; auto 6.
  - destruct Ph as [Ph | Ph]; rewrite Ph; auto 6.
  - destruct Ph as [Ph | Ph]; rewrite Ph; auto 6.
Qed.

(** X10: when the timer fires, the promise is rejected with the timeout
    indication and the signal is aborted by one call of [abort()]; after
    that no event changes the outcome (a fault the transport raises for the
    abort is ignored), no interceptor is ever called and the world stays
    as it was. *)
Theorem timeout_rejects_and_sticks this st d evs :
  reachable st ->
  timeoutTimeout st = TimerArmed d ->
  let st1 := step this st TimerExpired in
  let st2 := run this st1 evs in
  promise st1 = Rejected (VStr "timeout")
  /\ abortController st1 = {| aborted := true; abortCalls := 1; abortEvents := 1 |}
  /\ promise st2 = Rejected (VStr "timeout")
  /\ invocations st2 = []
  /\ world st2 = world st.
Proof.
  intros Hr T. cbv zeta.
  pose proof (reachable_Inv _ Hr) as HI.
  pose proof (Inv_pending_of_armed st d HI T) as P.
  pose proof (reachable_outcomeMatchesCalls st Hr) as HO.
  unfold outcomeMatchesCalls in HO. rewrite P in HO.
  destruct (inv_armed st HI d T) as [Hph Hc].
  pose proof (inv_abortCalls st HI) as HN. rewrite T, Hc in HN. simpl in HN.
  pose proof (inv_abortEvents st HI) as HE. rewrite HN in HE. simpl in HE.
  pose proof (inv_aborted st HI) as HA. rewrite HN in HA. simpl in HA.
  assert (forall evs s,
             aborted (abortController s) = true ->
             phase s = AwaitingFetch \/ phase s = Finished ->
             promise s = Rejected (VStr "timeout") ->
             invocations s = [] -> world s = world st ->
             promise (run this s evs) = Rejected (VStr "timeout")
             /\ invocations (run this s evs) = []
             /\ world (run this s evs) = world st) as K.
  { unfold run. induction evs0 as [|ev evs0 IH]; intros s A Ph Pp I W; simpl; [auto |].
    destruct (after_timeout_step this (world st) s ev A Ph Pp I W)
      as (A' & Ph' & P' & I' & W').
    now apply IH. }
  simpl. rewrite T.
  assert (promise (onTimeout st) = Rejected (VStr "timeout")) as P1
      by (simpl; now rewrite P).
  assert (abortController (onTimeout st)
          = {| aborted := true; abortCalls := 1; abortEvents := 1 |}) as A1
      by (simpl; now rewrite HN, HE, HA).
  split; [exact P1 |]. split; [exact A1 |].
  apply K; simpl; auto.
Qed.

Lemma timeout_rejects_and_sticks_witness :
  promise (run sampleFetcher (step sampleFetcher (sampleStart None) TimerExpired)
             [FetchRejected abortError; CancelCalled])
  = Rejected (VStr "timeout").
Proof.
  exact (proj1 (proj2 (proj2
           (timeout_rejects_and_sticks sampleFetcher (sampleStart None) defaultTimeout
              [FetchRejected abortError; CancelCalled]
              (sample_reachable None []) eq_refl)))).
Defined.

(** X11: the timeout covers the transport call only.  Once the transport
    promise is fulfilled the timer is gone, so while the body is decoded,
    and ever after, nothing rejects the promise with the timeout
    indication, however long the decoding takes. *)
Theorem body_decoding_cannot_time_out this st fr m evs :
  reachable st ->
  phase st = AwaitingBody fr m ->
  let st' := run this st evs in
  (timeoutTimeout st = TimerNone \/ timeoutTimeout st = TimerCleared)
  /\ timeoutTimeout st' = timeoutTimeout st
  /\ ~ In timeoutReject (settleCalls st')
  /\ promise st' <> Rejected (VStr "timeout").
Proof.
  intros Hr Hph. cbv zeta.
  destruct (Inv_body_pending st fr m (reachable_Inv _ Hr) Hph) as [_ T].
  destruct (run_frame this evs st) as (_ & F & _).
  pose proof (reachable_Inv _ (reachable_run this st evs Hr)) as HI'.
  assert (~ In timeoutReject (settleCalls (run this st evs))) as N.
  { intros I. apply (inv_timeoutCall _ HI') in I. rewrite (F T) in I.
    destruct T as [T | T]; rewrite T in I; discriminate. }
  repeat split; auto.
  intros R. apply N. apply (inv_rejected _ HI') in R. exact R.
Qed.

Lemma body_decoding_cannot_time_out_witness :
  promise (run sampleFetcher
             (run sampleFetcher (sampleStart None) [FetchFulfilled (jsonResponse 200 true)])
             [TimerExpired; BodyFulfilled (VStr "{}")])
  <> Rejected (VStr "timeout").
Proof.
  exact (proj2 (proj2 (proj2
           (body_decoding_cannot_time_out sampleFetcher _ (jsonResponse 200 true) Mjson
              [TimerExpired; BodyFulfilled (VStr "{}")]
              (sample_reachable None [FetchFulfilled (jsonResponse 200 true)])
              eq_refl)))).
Defined.

(* ------------------------------------------------------------------ *)
(** ** Cancellation settles nothing *)

(** X12: cancelling never settles the promise, never calls an interceptor
    and never changes the world.  It does not stop what follows either: a
    body that is decoded (or fails to decode) after the cancellation is
    handled as without it, interceptors included, so cancelling before or
    after that event gives the same state. *)
Theorem cancel_settles_nothing this st :
  reachable st ->
  let st1 := step this st CancelCalled in
  (promise st1 = promise st
   /\ settleCalls st1 = settleCalls st
   /\ invocations st1 = invocations st
   /\ world st1 = world st
   /\ phase st1 = phase st)
  /\ (forall data,
         step this st1 (BodyFulfilled data)
         = step this (step this st (BodyFulfilled data)) CancelCalled)
  /\ (forall e,
         step this st1 (BodyRejected e)
         = step this (step this st (BodyRejected e)) CancelCalled).
Proof.
  intros Hr. cbv zeta.
  pose proof (inv_cancelList st (reachable_Inv _ Hr)) as HL.
  destruct (cancel_keeps st) as (K1 & K2 & K3 & K4 & K5 & _).
  split; [simpl; auto 6 |].
  split.
  - intros data. simpl. rewrite K2.
    destruct (phase st) eqn:P; try reflexivity.
    rewrite !onData_eq. cbv zeta. clear K1 K2 K3 K4 K5 Hr.
    break st. subst. unfold cancel. simpl.
    destruct c, (isSuccess fetchResponse); reflexivity.
  - intros e. simpl. rewrite K2.
    destruct (phase st) eqn:P; try reflexivity.
    clear K1 K2 K3 K4 K5 Hr.
    break st. subst. unfold cancel. simpl.
    destruct c; reflexivity.
Qed.

Lemma cancel_settles_nothing_witness :
  let st := run sampleFetcher (sampleStart None) [FetchFulfilled (jsonResponse 200 true)] in
  step sampleFetcher (step sampleFetcher st CancelCalled) (BodyFulfilled (VStr "{}"))
  = step sampleFetcher (step sampleFetcher st (BodyFulfilled (VStr "{}"))) CancelCalled.
Proof.
  exact (proj1 (proj2
           (cancel_settles_nothing sampleFetcher _
              (sample_reachable None [FetchFulfilled (jsonResponse 200 true)])))
           (VStr "{}")).
Defined.

(* ------------------------------------------------------------------ *)
(** ** Registering observers *)

Lemma afterObservers_snoc l i r w :
  afterObservers (l ++ [i]) r w = snd (i r (afterObservers l r w)).
Proof. unfold afterObservers. now rewrite fold_left_app. Qed.

Lemma responseCalls_snoc n r :
  responseCalls (S n) r = responseCalls n r ++ [InvokeResponse n r].
Proof. unfold responseCalls. now rewrite seq_S, map_app. Qed.

Lemma errorCalls_snoc n r :
  errorCalls (S n) r = errorCalls n r ++ [InvokeError n r].
Proof. unfold errorCalls. now rewrite seq_S, map_app. Qed.

Lemma length_snoc {A : Type} (l : list A) (x : A) : length (l ++ [x]) = S (length l).
Proof. rewrite length_app. simpl. lia. Qed.

(** X13: a response interceptor registered with [addResponseInterceptor]
    runs after those registered before, on the same value and in the world
    they left; it changes neither the settled value nor the handling of a
    response that is not a success, nor what [execute] sends. *)
Theorem added_response_interceptor_runs_last this i fr data st :
  let r := length (heap (world st)) in
  let st1 := onData this fr data st in
  let st2 := onData (addResponseInterceptor this i) fr data st in
  (isSuccess fr = true ->
   world st2 = snd (i r (world st1))
   /\ invocations st2
      = invocations st1 ++ [InvokeResponse (length (responseInterceptors this)) r]
   /\ promise st2 = promise st1
   /\ settleCalls st2 = settleCalls st1)
  /\ (isSuccess fr = false -> st2 = st1)
  /\ (forall method url params body opts w,
         execute (addResponseInterceptor this i) method url params body opts w
         = execute this method url params body opts w).
Proof.
  cbv zeta. rewrite !onData_eq. cbv zeta. split; [| split].
  - intros S. rewrite S. simpl.
    rewrite afterObservers_snoc, length_snoc, responseCalls_snoc, app_assoc.
    repeat split.
  - intros S. rewrite S. reflexivity.
  - reflexivity.
Qed.

(** X14: the same for an error interceptor registered with
    [addErrorInterceptor]: it runs last on an error response and leaves
    successes and the request alone. *)
Theorem added_error_interceptor_runs_last this i fr data st :
  let r := length (heap (world st)) in
  let st1 := onData this fr data st in
  let st2 := onData (addErrorInterceptor this i) fr data st in
  (isSuccess fr = false ->
   world st2 = snd (i r (world st1))
   /\ invocations st2
      = invocations st1 ++ [InvokeError (length (errorInterceptors this)) r]
   /\ promise st2 = promise st1
   /\ settleCalls st2 = settleCalls st1)
  /\ (isSuccess fr = true -> st2 = st1)
  /\ (forall method url params body opts w,
         execute (addErrorInterceptor this i) method url params body opts w
         = execute this method url params body opts w).
Proof.
  cbv zeta. rewrite !onData_eq. cbv zeta. split; [| split].
  - intros S. rewrite S. simpl.
    rewrite afterObservers_snoc, length_snoc, errorCalls_snoc, app_assoc.
    repeat split.
  - intros S. rewrite S. reflexivity.
  - reflexivity.
Qed.

(* ------------------------------------------------------------------ *)
(** ** The earlier variant, completed *)

Lemma legacy_bodyMethod opts fr :
  LegacyRun.bodyMethod opts fr = selectDecoding opts fr.
Proof.
  unfold LegacyRun.bodyMethod, selectDecoding.
  destruct opts as [[? ? [[]|]]|]; reflexivity.
Qed.

Lemma legacy_observe mk (interceptors : list (Ref -> World -> JsVal * World)) r :
  forall k w l,
    fold_left
      (fun (acc : nat * World * list Invocation)
           (interceptor : Ref -> World -> JsVal * World) =>
         let '(k, w, l) := acc in
         (S k, snd (interceptor r w), l ++ [mk k r]))
      interceptors (k, w, l)
    = ((k + length interceptors)%nat,
       afterObservers interceptors r w,
       l ++ map (fun j => mk j r) (seq k (length interceptors))).
Proof.
  induction interceptors as [|i rest IH]; intros k w l; simpl.
  - now rewrite Nat.add_0_r, app_nil_r.
  - rewrite IH. unfold afterObservers. simpl.
    rewrite <- app_assoc. simpl. f_equal. f_equal. lia.
Qed.

Lemma legacy_observe_eq mk interceptors r w :
  LegacyRun.observe mk interceptors r w
  = (afterObservers interceptors r w,
     map (fun j => mk j r) (seq 0 (length interceptors))).
Proof.
  unfold LegacyRun.observe. now rewrite legacy_observe.
Qed.

(** X15: for a positive timeout (the earlier variant then arms no timer)
    and a run of the current variant in which no timer fires and nobody
    cancels, the two variants end alike for every completion of the
    transport: the same body method is called, the promise settles with
    the same value, the same interceptors are called in the same order and
    the world is left the same. *)
Theorem legacy_completion_agrees this method url params body opts w st c :
  execute this method url params body opts w = Returns st ->
  0 < effectiveTimeout this opts ->
  let legacy := LegacyRun.execute this method url params body opts w c in
  let st' := run this st (eventsOf c) in
  Legacy.timer (Legacy.execute this method url params body opts w) = TimerNone
  /\ promise st' = LegacyRun.promise legacy
  /\ world st' = LegacyRun.world legacy
  /\ invocations st' = LegacyRun.invocations legacy
  /\ decodedBy (states this st (eventsOf c)) = LegacyRun.decoded legacy.
Proof.
  intros Hex Hpos. cbv zeta.
  split.
  { rewrite legacy_timer. destruct (Z.leb_spec (effectiveTimeout this opts) 0);
      [lia | reflexivity]. }
  unfold LegacyRun.execute.
  pose proof (f_equal snd (legacy_request this method url params body opts w)) as HW.
  simpl in HW. rewrite HW. clear HW.
  rewrite execute_returns in Hex. injection Hex as <-.
  unfold executor.
  destruct (effectiveTimeout this opts >=? 0);
    destruct c as [e | fr e | fr data]; unfold run, decodedBy; simpl;
    rewrite ?legacy_bodyMethod; auto;
    rewrite onData_eq; cbv zeta;
    change (FetchResponse.ok fr && (FetchResponse.status fr <? 300)
            && (FetchResponse.status fr >=? 200))%bool with (isSuccess fr);
    destruct (isSuccess fr); simpl; rewrite legacy_observe_eq; simpl; auto.
Qed.

Lemma legacy_completion_agrees_witness :
  promise (run sampleFetcher (sampleStart None)
             (eventsOf (LegacyRun.BodyReads (jsonResponse 404 false) (VStr "gone"))))
  = LegacyRun.promise
      (LegacyRun.execute sampleFetcher GET "/v1/x" [] VNull None emptyWorld
         (LegacyRun.BodyReads (jsonResponse 404 false) (VStr "gone"))).
Proof.
  exact (proj1 (proj2
           (legacy_completion_agrees sampleFetcher GET "/v1/x" [] VNull None emptyWorld
              (sampleStart None)
              (LegacyRun.BodyReads (jsonResponse 404 false) (VStr "gone"))
              eq_refl eq_refl))).
Defined.

Lemma legacy_timer_agreement_witness :
  timeoutTimeout (sampleStart (withTimeout 0))
  = Legacy.timer
      (Legacy.execute sampleFetcher GET "/v1/x" [] VNull (withTimeout 0) emptyWorld).
Proof.
  exact (proj2 (legacy_timer_agreement sampleFetcher GET "/v1/x" [] VNull
                  (withTimeout 0) emptyWorld (sampleStart (withTimeout 0)) eq_refl)
           eq_refl).
Defined.

(* ------------------------------------------------------------------ *)
(** ** Rejection reasons *)

Lemma reasons_step this st ev :
  Inv st -> reasonsInv st -> reasonsInv (step this st ev).
Proof.
  intros HI [HK HT].
  assert (forall st',
             (promise st' = promise st
              \/ (promise st = Pending
                  /\ exists v, promise st' = Rejected v /\ knownReason v
                               /\ v <> VStr "timeout")
              \/ (promise st = Pending /\ exists v, promise st' = Fulfilled v)) ->
             (timeoutTimeout st' = TimerFired <-> timeoutTimeout st = TimerFired) ->
             reasonsInv st') as K.
  { intros st' HP HF. split.
    - intros v E. destruct HP as [HP | [(P & u & Eu & Ku & _) | (P & u & Eu)]].
      + apply HK. congruence.
      + congruence.
      + congruence.
    - rewrite HF. destruct HP as [HP | [(P & u & Eu & _ & Nu) | (P & u & Eu)]].
      + now rewrite HP.
      + rewrite HT, P, Eu. split; intros E; [discriminate | congruence].
      + rewrite HT, P, Eu. split; discriminate. }
  destruct ev as [| | fr | e | data | e]; simpl.
  - destruct (timeoutTimeout st) as [| d | |] eqn:T;
      try (split; [exact HK | rewrite T; exact HT]).
    pose proof (Inv_pending_of_armed st d HI T) as P.
    split; simpl; rewrite P.
    + intros v E. injection E as <-. reflexivity.
    + split; reflexivity.
  - destruct (cancel_keeps st) as (K1 & _).
    pose proof (inv_cancelList st HI) as HL.
    apply K; [now left |].
    unfold cancel. rewrite HL. destruct (isCanceled st); simpl; [tauto | destruct (timeoutTimeout st); split; congruence].
  - destruct (phase st); try (split; assumption).
    destruct (aborted (abortController st)); [split; assumption |].
    apply K; simpl; [now left | destruct (timeoutTimeout st); split; congruence].
  - destruct (phase st); try (split; assumption).
    apply K; simpl; [| destruct (timeoutTimeout st); split; congruence].
    destruct (promise st); [right; left | now left | now left].
    split; [reflexivity |]. exists (VError e). repeat split. discriminate.
  - destruct (phase st) eqn:Ph; try (split; assumption).
    destruct (Inv_body_pending st fetchResponse method HI Ph) as [P _].
    rewrite onData_eq. cbv zeta.
    destruct (isSuccess fetchResponse); (apply K; simpl; [rewrite P | tauto]).
    + right; right. eauto.
    + right; left. split; [reflexivity |]. eexists. repeat split. discriminate.
  - destruct (phase st) eqn:Ph; try (split; assumption).
    destruct (Inv_body_pending st fetchResponse method HI Ph) as [P _].
    apply K; simpl; [rewrite P | tauto].
    right; left. split; [reflexivity |]. exists (VError e). repeat split. discriminate.
Qed.

(** X16: a call is rejected with the string "timeout" exactly when its
    timer has fired; every other rejection carries an error response
    object or the fault raised by the transport, so the three kinds of
    failure can be told apart by the reason. *)
Theorem rejection_reasons st :
  reachable st ->
  (forall v, promise st = Rejected v -> knownReason v)
  /\ (timeoutTimeout st = TimerFired <-> promise st = Rejected (VStr "timeout")).
Proof.
  induction 1 as [this method url params body options w st Hex | this st ev Hr IH].
  - rewrite execute_returns in Hex. injection Hex as <-.
    unfold executor.
    destruct (effectiveTimeout this options >=? 0); simpl;
      (split; [intros v E; discriminate | split; discriminate]).
  - apply reasons_step; [now apply reachable_Inv | exact IH].
Qed.

Lemma rejection_reasons_witness :
  timeoutTimeout (run sampleFetcher (sampleStart (withTimeout 5)) [TimerExpired])
  = TimerFired
  <-> promise (run sampleFetcher (sampleStart (withTimeout 5)) [TimerExpired])
      = Rejected (VStr "timeout").
Proof.
  exact (proj2 (rejection_reasons _ (sample_reachable (withTimeout 5) [TimerExpired]))).
Defined.

(* ------------------------------------------------------------------ *)
(** ** Outcome and interceptor runs for one client *)





